(** * VibeCursor: macro recorder / player, audio capture, transcription
      client and service.

    A shallow embedding of [frontend.py] and [main.py].  Module-level
    globals of the Python program ([macro], [recording_flag], [audio_q],
    [_keys_held]) are threaded explicitly through the functions that touch
    them; library calls (clock, clipboard, input injection, file system,
    HTTP) act on explicit world states.

    Time: [time.time()] readings, recorded offsets and sleeps are integers
    counting microseconds, so [time.sleep(0.002)] advances the clock by at
    least [2000]. *)

From Stdlib Require Import ZArith Lia.
From stdpp Require Import base gmap sets list strings.

Set Warnings "-clear-no-such-hyp".

Open Scope string_scope.
Open Scope list_scope.
Open Scope Z_scope.

(* ================================================================== *)
(** ** Python values stored in a macro step *)

(** [pynput.mouse.Button] *)
Inductive Button := Button_left | Button_middle | Button_right | Button_other (n : nat).

Inductive pyval :=
| PInt (n : Z)
| PStr (s : string)
| PButton (b : Button).

(** A macro step is the dict [{"t": .., "type": .., "data": ..}]; the
    tuple under ["data"] is a list of values. *)
Record step := Step {
  step_t : Z;
  step_type : string;
  step_data : list pyval
}.

(* ================================================================== *)
(** ** Playback world: clock, clipboard and injected input *)

Inductive effect :=
| Copy (text : string)          (* pyperclip.copy(text) *)
| MoveTo (x y : pyval)          (* pyautogui.moveTo(x, y) *)
| Click                         (* pyautogui.click() *)
| Hotkey (keys : list pyval).   (* pyautogui.hotkey with the keys as arguments *)

(** [now] is the wall clock, [ops] counts the library calls made so far,
    [trace] logs every output effect with the clock value at which it was
    issued. *)
Record world := World {
  now : Z;
  ops : nat;
  clipboard : option string;
  trace : list (Z * effect)
}.

Inductive exn := ValueError.

Inductive result :=
| Returned (w : world)
| Raised (e : exn) (w : world).

Definition SLEEP_STEP : Z := 2000.

Section Playback.

(** [lat n] is the time the [n]-th library call takes beyond what it was
    asked to wait; the environment chooses it. *)
Variable lat : nat -> Z.

Definition tick (extra : Z) (w : world) : world :=
  {| now := now w + extra + lat (ops w);
     ops := S (ops w);
     clipboard := clipboard w;
     trace := trace w |}.

Definition emit (e : effect) (w : world) : world :=
  {| now := now w; ops := ops w; clipboard := clipboard w;
     trace := trace w ++ [(now w, e)] |}.

(** [time.time()]: the reading, and the world after the call. *)
Definition time_time (w : world) : Z * world := (now w, tick 0 w).

(** [time.sleep(d)] *)
Definition time_sleep (d : Z) (w : world) : world := tick d w.

Definition pyperclip_copy (text : string) (w : world) : world :=
  let w1 := emit (Copy text) w in
  tick 0 {| now := now w1; ops := ops w1; clipboard := Some text; trace := trace w1 |}.

Definition pyautogui_moveTo (x y : pyval) (w : world) : world :=
  tick 0 (emit (MoveTo x y) w).

Definition pyautogui_click (w : world) : world :=
  tick 0 (emit Click w).

Definition pyautogui_hotkey (keys : list pyval) (w : world) : world :=
  tick 0 (emit (Hotkey keys) w).

(** [while time.time() - t0 < step["t"]: time.sleep(0.002)] *)
Fixpoint wait_until (fuel : nat) (t0 off : Z) (w : world) : option world :=
  match fuel with
  | O => None
  | S fuel' =>
      let '(r, w1) := time_time w in
      if r - t0 <? off
      then wait_until fuel' t0 off (time_sleep SLEEP_STEP w1)
      else Some w1
  end.

(** The body of the [for] loop after the wait: the case analysis on
    [step["type"]] and the unpacking [x, y, btn = step["data"]]. *)
Definition play_step (s : step) (w : world) : result :=
  if String.eqb (step_type s) "mouse" then
    match step_data s with
    | [x; y; _] => Returned (pyautogui_click (pyautogui_moveTo x y w))
    | _ => Raised ValueError w
    end
  else if String.eqb (step_type s) "hotkey" then
    Returned (pyautogui_hotkey (step_data s) w)
  else Returned w.

(** [for step in macro: ...]; every busy-wait may spin [fuel] times. *)
Fixpoint play_loop (fuel : nat) (t0 : Z) (steps : list step) (w : world)
  : option result :=
  match steps with
  | [] => Some (Returned w)
  | s :: rest =>
      match wait_until fuel t0 (step_t s) w with
      | None => None
      | Some w1 =>
          match play_step s w1 with
          | Returned w2 => play_loop fuel t0 rest w2
          | Raised e w2 => Some (Raised e w2)
          end
      end
  end.

(** The clock value bound to [t0] by [play_macro]. *)
Definition playback_start (text : string) (w : world) : Z :=
  fst (time_time (pyperclip_copy text w)).

Definition play_macro (fuel : nat) (macro : list step) (text : string) (w : world)
  : option result :=
  match macro with
  | [] => Some (Returned w)
  | _ :: _ =>
      let w1 := pyperclip_copy text w in
      let '(t0, w2) := time_time w1 in
      play_loop fuel t0 macro w2
  end.

End Playback.

(* ================================================================== *)
(** ** Keys, the held-key set and the emergency kill listener *)

(** [pynput.keyboard.Key]: the special keys the program names, and the rest. *)
Inductive Key := ctrl_l | ctrl_r | shift_l | Key_other (n : nat).

(** A key delivered by a keyboard listener: a [Key] member or a
    [KeyCode] with its virtual key code and character. *)
Inductive key :=
| Special (k : Key)
| KeyCode (vk : option Z) (char : option string).

#[global] Instance Key_eq_dec : EqDecision Key.
Proof. solve_decision. Defined.

#[global] Instance key_eq_dec : EqDecision key.
Proof. solve_decision. Defined.

Definition key_code (k : key) : nat + (option Z * option string) :=
  match k with
  | Special ctrl_l => inl 0%nat
  | Special ctrl_r => inl 1%nat
  | Special shift_l => inl 2%nat
  | Special (Key_other n) => inl (S (S (S n)))
  | KeyCode vk char => inr (vk, char)
  end.

Definition key_of_code (c : nat + (option Z * option string)) : key :=
  match c with
  | inl 0%nat => Special ctrl_l
  | inl 1%nat => Special ctrl_r
  | inl 2%nat => Special shift_l
  | inl (S (S (S n))) => Special (Key_other n)
  | inr (vk, char) => KeyCode vk char
  end.

#[global] Program Instance key_countable : Countable key :=
  inj_countable' key_code key_of_code _.
Next Obligation. by intros [[]|]. Qed.

(** How a Python set tells keys apart: the listener library compares and
    hashes a [KeyCode] that has a character by that character alone (the
    virtual key code plays no part), and any other key by its value.
    [canon k] is the representative of [k]; a set of keys holds
    representatives, so that the delivered [KeyCode(vk=113, char='q')] is
    the member [KeyCode(char='q')]. *)
Definition canon (k : key) : key :=
  match k with
  | KeyCode _ (Some c) => KeyCode None (Some c)
  | _ => k
  end.

Definition KILL_COMBO : gset key :=
  {[ Special ctrl_l; Special shift_l; KeyCode None (Some "q") ]}.

(** The module-level globals shared by the listeners and the player. *)
Record globals := Globals {
  macro : list step;
  _keys_held : gset key
}.

Inductive status := Running | Exited (code : Z).

Definition _kill_press (k : key) (g : globals) : globals * status :=
  if decide (canon k ∈ KILL_COMBO) then
    let g1 := {| macro := macro g; _keys_held := {[ canon k ]} ∪ _keys_held g |} in
    if decide (KILL_COMBO ⊆ _keys_held g1) then (g1, Exited 1) else (g1, Running)
  else (g, Running).

Definition _kill_release (k : key) (g : globals) : globals :=
  {| macro := macro g; _keys_held := _keys_held g ∖ {[ canon k ]} |}.

(* ================================================================== *)
(** ** Macro recorder *)

(** The locals of one [record_macro] call that its callbacks close over,
    and whether each of its two listeners is still running. *)
Record recorder := Recorder {
  start : Z;
  stop_record : bool;
  ml_alive : bool;
  kl_alive : bool
}.

Definition V_VK : Z := 86.

(** [on_click(x, y, btn, pressed)], called at clock value [tm]. *)
Definition on_click (tm : Z) (x y : Z) (btn : Button) (pressed : bool)
    (g : globals) (r : recorder) : globals * recorder :=
  if stop_record r then
    (g, {| start := start r; stop_record := stop_record r;
           ml_alive := false; kl_alive := kl_alive r |})
  else if pressed then
    ({| macro := macro g ++ [Step (tm - start r) "mouse" [PInt x; PInt y; PButton btn]];
        _keys_held := _keys_held g |}, r)
  else (g, r).

Definition is_stop_key (k : key) : bool :=
  match k with
  | KeyCode _ (Some c) => String.eqb c "s"
  | _ => false
  end.

(** [on_press(key)] *)
Definition on_press (k : key) (g : globals) (r : recorder) : globals * recorder :=
  if is_stop_key k then
    (g, {| start := start r; stop_record := true;
           ml_alive := ml_alive r; kl_alive := false |})
  else
    ({| macro := macro g; _keys_held := {[ canon k ]} ∪ _keys_held g |}, r).

Definition is_paste_release (k : key) (held : gset key) : bool :=
  match k with
  | KeyCode (Some vk) _ =>
      (vk =? V_VK) && (bool_decide (Special ctrl_l ∈ held) || bool_decide (Special ctrl_r ∈ held))
  | _ => false
  end.

(** [on_release(key)], called at clock value [tm]. *)
Definition on_release (tm : Z) (k : key) (g : globals) (r : recorder)
    : globals * recorder :=
  let m1 :=
    if is_paste_release k (_keys_held g)
    then (macro g ++ [Step (tm - start r) "hotkey" [PStr "ctrl"; PStr "v"]])%list
    else macro g in
  ({| macro := m1; _keys_held := _keys_held g ∖ {[ canon k ]} |}, r).

(** The first lines of [record_macro]: [macro.clear()], [start = time.time()],
    the stop flag, and both listeners started. *)
Definition record_macro_begin (tm : Z) (g : globals) : globals * recorder :=
  ({| macro := []; _keys_held := _keys_held g |},
   {| start := tm; stop_record := false; ml_alive := true; kl_alive := true |}).

(* ------------------------------------------------------------------ *)
(** *** The process: kill listener plus at most one recorder

    The kill listener runs for the whole life of the process.  The model
    follows one recorder at a time, the latest: it describes sessions that
    start when the listeners of the session before have stopped. *)

Record sys := Sys {
  glob : globals;
  rec : option recorder;
  proc : status
}.

(** One handler invocation. *)
Inductive call :=
| CRecord (tm : Z)
| COnClick (tm : Z) (x y : Z) (btn : Button) (pressed : bool)
| COnPress (k : key)
| COnRelease (tm : Z) (k : key)
| CKillPress (k : key)
| CKillRelease (k : key).

(** What happens to the process.  A key event reaches the kill listener
    and the recorder's keyboard listener, each on a thread of its own that
    nothing synchronises with the other.  [InPress] and [InRelease] are a
    key event that both listeners handle back to back, [kill_first] saying
    which of the two goes first; [InCall] is one listener handling one
    event on its own, ahead of the other listener or behind it. *)
Inductive input :=
| InRecord (tm : Z)
| InClick (tm : Z) (x y : Z) (btn : Button) (pressed : bool)
| InPress (kill_first : bool) (k : key)
| InRelease (kill_first : bool) (tm : Z) (k : key)
| InCall (c : call).

Definition dispatch (i : input) : list call :=
  match i with
  | InRecord tm => [CRecord tm]
  | InClick tm x y btn pressed => [COnClick tm x y btn pressed]
  | InPress true k => [CKillPress k; COnPress k]
  | InPress false k => [COnPress k; CKillPress k]
  | InRelease true tm k => [CKillRelease k; COnRelease tm k]
  | InRelease false tm k => [COnRelease tm k; CKillRelease k]
  | InCall c => [c]
  end.

Definition with_recorder (f : globals -> recorder -> globals * recorder)
    (alive : recorder -> bool) (s : sys) : sys :=
  match rec s with
  | Some r =>
      if alive r
      then let '(g1, r1) := f (glob s) r in {| glob := g1; rec := Some r1; proc := proc s |}
      else s
  | None => s
  end.

(** A call runs only while the process is alive; a recorder callback runs
    only while its listener is. *)
Definition exec_call (c : call) (s : sys) : sys :=
  match proc s with
  | Exited _ => s
  | Running =>
      match c with
      | CRecord tm =>
          let '(g1, r1) := record_macro_begin tm (glob s) in
          {| glob := g1; rec := Some r1; proc := Running |}
      | COnClick tm x y btn pressed => with_recorder (on_click tm x y btn pressed) ml_alive s
      | COnPress k => with_recorder (on_press k) kl_alive s
      | COnRelease tm k => with_recorder (on_release tm k) kl_alive s
      | CKillPress k =>
          let '(g1, st) := _kill_press k (glob s) in
          {| glob := g1; rec := rec s; proc := st |}
      | CKillRelease k =>
          {| glob := _kill_release k (glob s); rec := rec s; proc := Running |}
      end
  end.

Definition exec (cs : list call) (s : sys) : sys := fold_left (fun s c => exec_call c s) cs s.

Definition boot : sys :=
  {| glob := {| macro := []; _keys_held := ∅ |}; rec := None; proc := Running |}.

Definition session_over (s : sys) : bool :=
  match rec s with
  | Some r => negb (ml_alive r) && negb (kl_alive r)
  | None => true
  end.

Definition alive (s : sys) : bool :=
  match proc s with Running => true | Exited _ => false end.

(** [ml.join(); kl.join()]: handle inputs until both listeners have stopped. *)
Fixpoint join_listeners (ins : list input) (s : sys) : option (sys * list input) :=
  if alive s && session_over s then Some (s, ins)
  else match ins with
       | [] => None
       | i :: rest => join_listeners rest (exec (dispatch i) s)
       end.

(** [record_macro()], entered at clock value [tm] with inputs [ins] to come:
    the globals when it returns, and the inputs it left unhandled. *)
Definition record_macro (tm : Z) (ins : list input) (s : sys) : option (sys * list input) :=
  join_listeners ins (exec_call (CRecord tm) s).

(* ================================================================== *)
(** ** Files *)

Inductive file :=
| Bytes (content : list Z)
| Wav (rate : Z) (channels : nat) (samples : list Z).

(* ================================================================== *)
(** ** Voice recording *)

(** One block of [int16] samples handed to the stream callback. *)
Definition chunk := list Z.

Record audio := Audio {
  recording_flag : bool;
  audio_q : list chunk
}.

(** [_audio_callback(indata, frames, t, status)] *)
Definition _audio_callback (indata : chunk) (a : audio) : audio :=
  if recording_flag a
  then {| recording_flag := recording_flag a; audio_q := audio_q a ++ [indata] |}
  else a.

(** Where the capturing thread stands in
    [while recording_flag[0]: try: frames.append(audio_q.get(timeout=0.1)) ...]. *)
Inductive capture_pc := AtWhile | AtGet | AfterLoop.

Record capture := Capture {
  pc : capture_pc;
  frames : list chunk
}.

(** What happens around the capturing thread: the stream delivers a block,
    the GUI thread writes the flag, or the capturing thread itself advances
    (at [AtGet] with an empty queue that is the 0.1 s timeout expiring). *)
Inductive audio_event :=
| Block (indata : chunk)
| SetFlag (b : bool)
| Advance.

Definition capture_advance (a : audio) (c : capture) : audio * capture :=
  match pc c with
  | AtWhile =>
      (a, {| pc := if recording_flag a then AtGet else AfterLoop; frames := frames c |})
  | AtGet =>
      match audio_q a with
      | x :: q =>
          ({| recording_flag := recording_flag a; audio_q := q |},
           {| pc := AtWhile; frames := frames c ++ [x] |})
      | [] => (a, {| pc := AtWhile; frames := frames c |})
      end
  | AfterLoop => (a, c)
  end.

Definition audio_step (e : audio_event) (a : audio) (c : capture) : audio * capture :=
  match e with
  | Block indata => (_audio_callback indata a, c)
  | SetFlag b => ({| recording_flag := b; audio_q := audio_q a |}, c)
  | Advance => capture_advance a c
  end.

(** Run the loop against the events to come; [None] when they end before
    the loop does. *)
Fixpoint capture_loop (evs : list audio_event) (a : audio) (c : capture)
  : option (audio * list chunk * list audio_event) :=
  match pc c with
  | AfterLoop => Some (a, frames c, evs)
  | _ =>
      match evs with
      | [] => None
      | e :: rest => let '(a1, c1) := audio_step e a c in capture_loop rest a1 c1
      end
  end.

Definition DEFAULT_SR : Z := 16000.
Definition STREAM_CHANNELS : nat := 1.

(** [record_until_toggle(path, sr=16_000)]; [sr = None] is a call that
    leaves the default in place.  Returns the boolean, the file system, the
    globals and the events not yet consumed. *)
Definition record_until_toggle (path : string) (sr : option Z)
    (evs : list audio_event) (a : audio) (fs : gmap string file)
  : option (bool * gmap string file * audio * list audio_event) :=
  match capture_loop evs a {| pc := AtWhile; frames := [] |} with
  | None => None
  | Some (a1, [], rest) => Some (false, fs, a1, rest)
  | Some (a1, fr, rest) =>
      let data := concat fr in
      Some (true, <[path := Wav (default DEFAULT_SR sr) STREAM_CHANNELS data]> fs, a1, rest)
  end.

(* ================================================================== *)
(** ** Transcription client *)

#[warnings="-register-all"]
Inductive json :=
| JNull
| JBool (b : bool)
| JNum (n : Z)
| JStr (s : string)
| JArr (items : list json)
| JObj (fields : list (string * json)).

(** [d.get(k)] on the dict a JSON object parses to, kept as an association
    list whose first binding of a key is the one that counts. *)
Fixpoint dict_get (k : string) (d : list (string * json)) : option json :=
  match d with
  | [] => None
  | (k', v) :: rest => if String.eqb k k' then Some v else dict_get k rest
  end.

(** What [requests.post] hands back: [ok] is [r.ok]; [body] is the parsed
    body, [None] when the body is not JSON at all. *)
Record response := Response {
  ok : bool;
  body : option json
}.

Inductive pyexn :=
| FileNotFoundError
| ConnectionError
| JSONDecodeError
| AttributeError.

Inductive outcome (A : Type) :=
| Value (a : A)
| Throw (e : pyexn).
Arguments Value {A} a.
Arguments Throw {A} e.

Definition ERR : json := JStr "<err>".

(** [r.json().get('text', '<err>') if r.ok else '<err>'] *)
Definition text_of_response (r : response) : outcome json :=
  if ok r then
    match body r with
    | None => Throw JSONDecodeError
    | Some (JObj d) => Value (default ERR (dict_get "text" d))
    | Some _ => Throw AttributeError
    end
  else Value ERR.

(** [send_audio(path)]; [post f] is the server's answer to the upload of
    [f], [None] when no answer arrives. *)
Definition send_audio (post : file -> option response) (path : string)
    (fs : gmap string file) : outcome json :=
  match fs !! path with
  | None => Throw FileNotFoundError
  | Some f =>
      match post f with
      | None => Throw ConnectionError
      | Some r => text_of_response r
      end
  end.

(* ================================================================== *)
(** ** Transcription service *)

Record UploadFile := Upload {
  filename : option string;
  upload_content : list Z
}.

Inductive http_result :=
| JSONResponse (text : string)                       (* 200 {"text": ..} *)
| HTTPException (status_code : Z) (detail : string)
| Uncaught (what : string).

(** The environment of one request: the name [NamedTemporaryFile] picks
    (before the suffix); whether [shutil.copyfileobj] fails, and then with
    which exception and after how many bytes of the upload had been
    written; and what the [try] block around [model.transcribe(temp_path)]
    yields on a given file system: the text of the result or the message
    of the exception. *)
Record request_env := RequestEnv {
  tmp_name : string;
  copy_error : option (string * nat);
  transcribe : string -> gmap string file -> string + string
}.

Section Service.

(** [os.path.splitext(p)[1]] and [str.strip] *)
Variable splitext_ext : string -> string.
Variable strip : string -> string.

Definition temp_path_of (env : request_env) (name : string) : string :=
  (tmp_name env ++ splitext_ext name)%string.

Definition transcribe_audio (env : request_env) (up : UploadFile)
    (fs : gmap string file) : gmap string file * http_result :=
  match filename up with
  | None => (fs, Uncaught "TypeError")
  | Some name =>
      let temp_path := temp_path_of env name in
      let fs1 := <[temp_path := Bytes []]> fs in
      match copy_error env with
      | Some (e, n) =>
          (<[temp_path := Bytes (take n (upload_content up))]> fs1, Uncaught e)
      | None =>
          let fs2 := <[temp_path := Bytes (upload_content up)]> fs1 in
          let res :=
            match transcribe env temp_path fs2 with
            | inl text => JSONResponse (strip text)
            | inr e => HTTPException 500 ("Transcription failed: " ++ e)%string
            end in
          let fs3 :=
            if decide (is_Some (fs2 !! temp_path)) then delete temp_path fs2 else fs2 in
          (fs3, res)
      end
  end.

End Service.

(* ================================================================== *)
(** ** Shapes and expected effects of recorded steps *)

(** The two shapes of step the recorder's callbacks build. *)
Definition recorded_shape (s : step) : Prop :=
  (step_type s = "mouse" /\
   exists x y b, step_data s = [PInt x; PInt y; PButton b]) \/
  (step_type s = "hotkey" /\ step_data s = [PStr "ctrl"; PStr "v"]).

(** What replaying one step is to inject: move-and-click for a pointer
    step, the hotkey for a hotkey step. *)
Definition replay_effects (s : step) : list effect :=
  if String.eqb (step_type s) "mouse" then
    match step_data s with
    | [x; y; _] => [MoveTo x y; Click]
    | _ => []
    end
  else if String.eqb (step_type s) "hotkey" then [Hotkey (step_data s)]
  else [].

(** The effects of a trace without their time stamps. *)
Definition effects (tr : list (Z * effect)) : list effect := map snd tr.

(** Each entry of [grp] was issued no earlier than [off] after [t0]. *)
Definition not_before (t0 off : Z) (grp : list (Z * effect)) : Prop :=
  Forall (fun p => off <= fst p - t0) grp.

(** A number of spins that suffices for every busy-wait of a playback. *)
Definition enough_fuel (steps : list step) : nat :=
  S (Z.to_nat (foldr (fun s m => Z.max (step_t s) m) 0 steps)).

(** Every step of the macro list has a recorded shape. *)
Definition macro_shaped (s : sys) : Prop := Forall recorded_shape (macro (glob s)).

(** The same system with another macro list. *)
Definition with_macro (m : list step) (s : sys) : sys :=
  {| glob := {| macro := m; _keys_held := _keys_held (glob s) |};
     rec := rec s; proc := proc s |}.

(** The blocks the stream callback puts on the queue while [evs] happen,
    the flag being [flag] at first. *)
Fixpoint enqueued (evs : list audio_event) (flag : bool) : list chunk :=
  match evs with
  | [] => []
  | Block x :: rest => if flag then x :: enqueued rest flag else enqueued rest flag
  | SetFlag b :: rest => enqueued rest b
  | Advance :: rest => enqueued rest flag
  end.

(** The value under ['text'] when the body is a JSON object that has one. *)
Definition text_field (r : response) : option json :=
  match body r with
  | Some (JObj d) => dict_get "text" d
  | _ => None
  end.

(* ================================================================== *)
(** ** Widgets the callbacks configure *)

Definition COL_CARD : string := "#111426".
Definition COL_PRIMARY : string := "#8f2bff".
Definition COL_PRIMARY_2 : string := "#4266ff".

Inductive tk_state := NORMAL | DISABLED.

Record tk_button := TkButton {
  btn_text : string;
  btn_bg : string;
  btn_state : tk_state
}.

Record gui := Gui {
  listen_btn : tk_button;
  copy_btn : tk_button;
  status_lbl : string;
  txtbox : string;
  txtbox_state : tk_state
}.

(** [listen_btn.config(text=.., bg=..)] *)
Definition config_listen (t b : string) (g : gui) : gui :=
  {| listen_btn := {| btn_text := t; btn_bg := b; btn_state := btn_state (listen_btn g) |};
     copy_btn := copy_btn g; status_lbl := status_lbl g;
     txtbox := txtbox g; txtbox_state := txtbox_state g |}.

(** [status_lbl.config(text=..)] *)
Definition config_status (t : string) (g : gui) : gui :=
  {| listen_btn := listen_btn g; copy_btn := copy_btn g; status_lbl := t;
     txtbox := txtbox g; txtbox_state := txtbox_state g |}.

(** The four [txtbox] lines of [process_audio_flow]: enable, delete all,
    insert [txt], disable. *)
Definition show_transcript (txt : string) (g : gui) : gui :=
  {| listen_btn := listen_btn g; copy_btn := copy_btn g; status_lbl := status_lbl g;
     txtbox := txt; txtbox_state := DISABLED |}.

(** [toggle_recording(_evt)]: the globals it reads and writes, the
    widgets, and whether it started a [process_audio_flow] thread. *)
Definition toggle_recording (m : list step) (a : audio) (g : gui) : audio * gui * bool :=
  if recording_flag a then
    ({| recording_flag := false; audio_q := audio_q a |},
     config_status "🎤 Idle" (config_listen "🎤  Listen" COL_PRIMARY g),
     false)
  else
    match m with
    | [] => (a, config_status "⚠️  Record a macro first!" g, false)
    | _ :: _ =>
        ({| recording_flag := true; audio_q := audio_q a |},
         config_status "🎙  Listening…  press Space to stop"
           (config_listen "🔴  Recording…" COL_PRIMARY_2 g),
         true)
    end.

(* ================================================================== *)
(** ** The capture, upload and playback thread *)

(** What [process_audio_flow] works on: the client's files, the audio
    globals, the widgets and the playback world. *)
Record desk := Desk {
  desk_fs : gmap string file;
  desk_audio : audio;
  desk_gui : gui;
  desk_world : world
}.

(** How the thread ends.  [FlowNotText]: the server's ['text'] was not a
    string; the thread is followed up to [os.remove] and no further. *)
Inductive flow_end :=
| FlowCancelled
| FlowDone
| FlowUploadRaised (e : pyexn)
| FlowNotText (v : json)
| FlowPlaybackRaised (e : exn).

(** [process_audio_flow()]; [tmp_stem] is the name [NamedTemporaryFile]
    picks before the suffix, [m] the macro list at playback. *)
Definition process_audio_flow (lat : nat -> Z) (fuel : nat)
    (post : file -> option response) (tmp_stem : string)
    (evs : list audio_event) (m : list step) (d : desk)
  : option (flow_end * desk * list audio_event) :=
  let wav_path := (tmp_stem ++ ".wav")%string in
  let fs1 := <[wav_path := Bytes []]> (desk_fs d) in
  match record_until_toggle wav_path None evs (desk_audio d) fs1 with
  | None => None
  | Some (false, fs2, a2, rest) =>
      let g2 := config_status "⚠️  Recording cancelled."
                  (config_listen "🎤  Listen" COL_PRIMARY (desk_gui d)) in
      Some (FlowCancelled,
            {| desk_fs := fs2; desk_audio := a2; desk_gui := g2; desk_world := desk_world d |},
            rest)
  | Some (true, fs2, a2, rest) =>
      match send_audio post wav_path fs2 with
      | Throw e =>
          Some (FlowUploadRaised e,
                {| desk_fs := fs2; desk_audio := a2; desk_gui := desk_gui d;
                   desk_world := desk_world d |},
                rest)
      | Value (JStr txt) =>
          let fs3 := delete wav_path fs2 in
          let g3 := show_transcript txt (desk_gui d) in
          match play_macro lat fuel m txt (desk_world d) with
          | None => None
          | Some (Raised e w1) =>
              Some (FlowPlaybackRaised e,
                    {| desk_fs := fs3; desk_audio := a2; desk_gui := g3; desk_world := w1 |},
                    rest)
          | Some (Returned w1) =>
              let g4 := config_status "✅  Done. Ready."
                          (config_listen "🎤  Listen" COL_PRIMARY g3) in
              Some (FlowDone,
                    {| desk_fs := fs3; desk_audio := a2; desk_gui := g4; desk_world := w1 |},
                    rest)
          end
      | Value v =>
          Some (FlowNotText v,
                {| desk_fs := delete wav_path fs2; desk_audio := a2; desk_gui := desk_gui d;
                   desk_world := desk_world d |},
                rest)
      end
  end.

(* ================================================================== *)
(** ** Client and service together *)

(** What the client's HTTP library sees of the handler's result: a JSON
    200 answer, the error answer with its status and [detail], or the
    plain 500 answer for an exception nobody caught.  [r.ok] holds for
    status codes below 400. *)
Definition http_of (res : http_result) : response :=
  match res with
  | JSONResponse text => {| ok := true; body := Some (JObj [("text", JStr text)]) |}
  | HTTPException code detail =>
      {| ok := code <? 400; body := Some (JObj [("detail", JStr detail)]) |}
  | Uncaught _ => {| ok := false; body := None |}
  end.

(* ================================================================== *)
(** ** Vocabulary of the further properties *)

(** The step with its button replaced, when it is a three-valued mouse step. *)
Definition with_button (v : pyval) (s : step) : step :=
  if String.eqb (step_type s) "mouse" then
    match step_data s with
    | [x; y; _] => {| step_t := step_t s; step_type := step_type s; step_data := [x; y; v] |}
    | _ => s
    end
  else s.

(** The unpacking [x, y, btn = step["data"]] is reached and succeeds, or
    is not reached. *)
Definition unpackable (s : step) : bool :=
  if String.eqb (step_type s) "mouse" then
    match step_data s with
    | [_; _; _] => true
    | _ => false
    end
  else true.

(** [lo <= x1 <= x2 <= ...] *)
Fixpoint ascending (lo : Z) (l : list Z) : Prop :=
  match l with
  | [] => True
  | x :: rest => lo <= x /\ ascending x rest
  end.

(** The clock value a recorder callback reads, if it may read one. *)
Definition call_time (c : call) : option Z :=
  match c with
  | COnClick tm _ _ _ _ => Some tm
  | COnRelease tm _ => Some tm
  | _ => None
  end.


Definition is_InClick (i : input) : bool :=
  match i with
  | InClick _ _ _ _ _ => true
  | InCall (COnClick _ _ _ _ _) => true
  | _ => false
  end.

(** The call is not a release of a key of the kill combination, by
    either listener. *)
Definition keeps_combo (c : call) : Prop :=
  match c with
  | COnRelease _ k | CKillRelease k => canon k ∉ KILL_COMBO
  | _ => True
  end.

(** The value of the flag after [evs], being [flag] before. *)
Fixpoint flag_after (evs : list audio_event) (flag : bool) : bool :=
  match evs with
  | [] => flag
  | SetFlag b :: rest => flag_after rest b
  | _ :: rest => flag_after rest flag
  end.


(** The mouse listener is still running, or the process is gone. *)
Definition mouse_listening (s : sys) : Prop :=
  alive s = false \/ exists r, rec s = Some r /\ ml_alive r = true.

(** The Listen control used several times in a row, the macro list being
    [ms !! i] at the [i]-th use: the final globals and widgets, and for each
    use whether it started a capture thread. *)
Fixpoint toggle_run (ms : list (list step)) (a : audio) (g : gui)
  : audio * gui * list bool :=
  match ms with
  | [] => (a, g, [])
  | m :: rest =>
      let '(a1, g1, started) := toggle_recording m a g in
      let '(a2, g2, later) := toggle_run rest a1 g1 in
      (a2, g2, started :: later)
  end.

(** No two neighbours of the list are both [true], nor [prev] and its head. *)
Fixpoint alternating (prev : bool) (l : list bool) : Prop :=
  match l with
  | [] => True
  | b :: rest => (prev && b = false) /\ alternating b rest
  end.

(** The client's upload as the service's handler answers it: [name] is the
    file name sent with the upload, [encode] the bytes of a file, [sfs] the
    service's file system. *)
Definition post_to_service (splitext_ext strip : string -> string)
    (env : request_env) (name : string) (encode : file -> list Z)
    (sfs : gmap string file) : file -> option response :=
  fun f =>
    Some (http_of (snd (transcribe_audio splitext_ext strip env
                          {| filename := Some name; upload_content := encode f |} sfs))).

(** A call of the kill listener. *)
Definition is_kill_call (c : call) : bool :=
  match c with
  | CKillPress _ | CKillRelease _ => true
  | _ => false
  end.

(** The step's type is neither ["mouse"] nor ["hotkey"]. *)
Definition skipped_type (s : step) : bool :=
  negb (String.eqb (step_type s) "mouse") && negb (String.eqb (step_type s) "hotkey").

(* ================================================================== *)
(** * Playback *)

Section PlaybackFacts.

Variable lat : nat -> Z.
Hypothesis lat_nonneg : forall n, 0 <= lat n.

Lemma wait_until_exit fuel t0 off : forall w w',
  wait_until lat fuel t0 off w = Some w' ->
  off <= now w' - t0 /\ now w <= now w' /\
  trace w' = trace w /\ clipboard w' = clipboard w.
Proof.
  induction fuel as [|fuel IH]; intros w w' H; simpl in H; [discriminate|].
  destruct (now w - t0 <? off) eqn:E.
  - apply IH in H. simpl in H.
    pose proof (lat_nonneg (ops w)). pose proof (lat_nonneg (S (ops w))).
    unfold SLEEP_STEP in H. repeat split; try tauto; lia.
  - inversion H; subst; simpl.
    pose proof (lat_nonneg (ops w)). repeat split; lia.
Qed.

Lemma wait_until_total f t0 off : forall w,
  off + t0 - now w <= SLEEP_STEP * Z.of_nat f ->
  exists w', wait_until lat (S f) t0 off w = Some w'.
Proof.
  unfold SLEEP_STEP.
  induction f as [|f IH]; intros w H; cbn [wait_until time_time]; cbv zeta.
  - destruct (now w - t0 <? off) eqn:E; [lia | eauto].
  - destruct (now w - t0 <? off) eqn:E; [|eauto].
    apply IH. simpl.
    pose proof (lat_nonneg (ops w)). pose proof (lat_nonneg (S (ops w))).
    unfold SLEEP_STEP. lia.
Qed.

Lemma play_step_returned s w w' :
  play_step lat s w = Returned w' ->
  exists grp, trace w' = trace w ++ grp /\
    effects grp = replay_effects s /\
    Forall (fun p => now w <= fst p) grp /\
    now w <= now w' /\ clipboard w' = clipboard w.
Proof.
  unfold play_step, replay_effects.
  destruct (String.eqb (step_type s) "mouse").
  - destruct (step_data s) as [|x [|y [|b [|]]]]; try discriminate.
    intros H; inversion H; subst; clear H. simpl.
    pose proof (lat_nonneg (ops w)). pose proof (lat_nonneg (S (ops w))).
    exists [(now w, MoveTo x y); (now w + 0 + lat (ops w), Click)].
    rewrite <- app_assoc. simpl. repeat split; try lia.
    repeat constructor; simpl; lia.
  - destruct (String.eqb (step_type s) "hotkey").
    + intros H; inversion H; subst; clear H. simpl.
      pose proof (lat_nonneg (ops w)).
      exists [(now w, Hotkey (step_data s))]. repeat split; try lia.
      repeat constructor; simpl; lia.
    + intros H; inversion H; subst; clear H.
      exists []. rewrite app_nil_r. repeat split; try lia. constructor.
Qed.

Lemma play_step_recorded s w :
  recorded_shape s -> exists w', play_step lat s w = Returned w'.
Proof.
  intros [[Ht (x & y & b & Hd)] | [Ht Hd]]; unfold play_step; rewrite Ht, Hd; simpl; eauto.
Qed.

Lemma play_loop_returned fuel t0 : forall steps w w',
  play_loop lat fuel t0 steps w = Some (Returned w') ->
  exists groups,
    trace w' = trace w ++ concat groups /\
    Forall2 (fun s grp => effects grp = replay_effects s /\ not_before t0 (step_t s) grp)
            steps groups /\
    now w <= now w' /\ clipboard w' = clipboard w /\
    (forall s, last steps = Some s -> step_t s <= now w' - t0).
Proof.
  induction steps as [|s rest IH]; intros w w' H; simpl in H.
  - inversion H; subst. exists []. simpl. rewrite app_nil_r.
    repeat split; try lia; try constructor. discriminate.
  - destruct (wait_until lat fuel t0 (step_t s) w) as [w1|] eqn:Hw; [|discriminate].
    destruct (play_step lat s w1) as [w2|e w2] eqn:Hs; [|discriminate].
    apply wait_until_exit in Hw as (Hoff & Hmono & Htr & Hcl).
    apply play_step_returned in Hs as (grp & Htr2 & Heff & Hts & Hmono2 & Hcl2).
    apply IH in H as (groups & Htr3 & Hall & Hmono3 & Hcl3 & Hlast).
    exists (grp :: groups). simpl.
    repeat split.
    + rewrite Htr3, Htr2, Htr. by rewrite <- app_assoc.
    + constructor; [split; [done|] | done].
      unfold not_before. eapply Forall_impl; [exact Hts|]. simpl. intros p Hp. lia.
    + lia.
    + congruence.
    + intros s'. destruct rest as [|s2 rest'].
      * simpl. intros [= <-]. lia.
      * intros Hl. apply Hlast. exact Hl.
Qed.

Lemma play_loop_total f t0 : forall steps w,
  Forall recorded_shape steps ->
  Forall (fun s => step_t s <= SLEEP_STEP * Z.of_nat f) steps ->
  t0 <= now w ->
  exists w', play_loop lat (S f) t0 steps w = Some (Returned w').
Proof.
  induction steps as [|s rest IH]; intros w Hshape Hoff Ht0.
  - simpl. eauto.
  - inversion Hshape as [|? ? Hs Hrest]; subst.
    inversion Hoff as [|? ? Ho Horest]; subst.
    destruct (wait_until_total f t0 (step_t s) w) as [w1 Hw1]; [lia|].
    destruct (play_step_recorded s w1 Hs) as [w2 Hw2].
    cbn [play_loop]. rewrite Hw1, Hw2.
    apply IH; try done.
    apply wait_until_exit in Hw1 as (_ & Hm1 & _).
    apply play_step_returned in Hw2 as (_ & _ & _ & _ & Hm2 & _). lia.
Qed.

Lemma enough_fuel_bound steps :
  Forall (fun s => step_t s <= SLEEP_STEP * Z.of_nat (Z.to_nat (foldr (fun s m => Z.max (step_t s) m) 0 steps))) steps.
Proof.
  unfold SLEEP_STEP.
  induction steps as [|s rest IH]; constructor.
  - simpl. lia.
  - eapply Forall_impl; [exact IH|]. simpl. intros x Hx. lia.
Qed.

Lemma play_macro_total steps text w :
  Forall recorded_shape steps ->
  exists w', play_macro lat (enough_fuel steps) steps text w = Some (Returned w').
Proof.
  intros Hshape. destruct steps as [|s rest]; [simpl; eauto|].
  unfold play_macro, enough_fuel. cbv zeta. unfold time_time.
  apply play_loop_total; [done | apply enough_fuel_bound |].
  simpl. pose proof (lat_nonneg (S (ops w))). lia.
Qed.

(** C1: for a non-empty recorded sequence, playback returns, every input
    injected for a record is issued no earlier than that record's offset
    after the playback start, and the clock at return is at least the last
    record's offset past the playback start (and past the call). *)
Theorem play_macro_reaches_offsets recorded text w :
  recorded <> [] ->
  Forall recorded_shape recorded ->
  (exists w', play_macro lat (enough_fuel recorded) recorded text w = Some (Returned w')) /\
  forall fuel w', play_macro lat fuel recorded text w = Some (Returned w') ->
    (exists groups,
        trace w' = trace (pyperclip_copy lat text w) ++ concat groups /\
        Forall2 (fun s grp => effects grp = replay_effects s /\
                              not_before (playback_start lat text w) (step_t s) grp)
                recorded groups) /\
    forall s, last recorded = Some s ->
      step_t s <= now w' - playback_start lat text w /\ step_t s <= now w' - now w.
Proof.
  intros Hne Hshape. split; [by apply play_macro_total|].
  intros fuel w' H. destruct recorded as [|s0 rest]; [done|].
  unfold play_macro in H. cbv zeta in H. unfold time_time in H.
  apply play_loop_returned in H as (groups & Htr & Hall & Hmono & _ & Hlast).
  split.
  - exists groups. split; [exact Htr | exact Hall].
  - intros s Hs. specialize (Hlast s Hs).
    unfold playback_start, time_time. cbn [fst]. split; [exact Hlast|].
    simpl in Hlast |- *. pose proof (lat_nonneg (ops w)). simpl. lia.
Qed.

(** C2: with an empty macro list [play_macro] returns at once, whatever
    the text: nothing is written to the clipboard, nothing is injected, and
    no library call is made, so the clock is not read and nothing waits. *)
Theorem play_macro_empty_noop fuel text w :
  exists w',
    play_macro lat fuel [] text w = Some (Returned w') /\
    clipboard w' = clipboard w /\ trace w' = trace w /\
    ops w' = ops w /\ now w' = now w.
Proof.
  exists w. split; [reflexivity|]. by repeat split.
Qed.

(** C7 (amended): for a non-empty recorded sequence, playback returns
    having written the text to the clipboard first and then injected the
    inputs of the records in list order, and nothing else. *)
Theorem play_macro_copy_then_replay recorded text w :
  recorded <> [] ->
  Forall recorded_shape recorded ->
  (exists w', play_macro lat (enough_fuel recorded) recorded text w = Some (Returned w')) /\
  forall fuel w', play_macro lat fuel recorded text w = Some (Returned w') ->
    effects (trace w') =
      effects (trace w) ++ Copy text :: flat_map replay_effects recorded /\
    clipboard w' = Some text.
Proof.
  intros Hne Hshape. split; [by apply play_macro_total|].
  intros fuel w' H. destruct recorded as [|s0 rest]; [done|].
  unfold play_macro in H. cbv zeta in H. unfold time_time in H.
  apply play_loop_returned in H as (groups & Htr & Hall & _ & Hcl & _).
  split; [|rewrite Hcl; reflexivity].
  rewrite Htr. cbn [tick trace pyperclip_copy emit].
  unfold effects. rewrite !map_app. cbn [map snd].
  rewrite <- app_assoc. cbn [app]. do 2 f_equal.
  clear -Hall. induction Hall as [|s grp ss gs [He _] _ IH]; [done|].
  cbn [concat flat_map]. rewrite map_app, IH. f_equal. exact He.
Qed.

End PlaybackFacts.

Lemma play_macro_reaches_offsets_witness :
  let lat := fun _ : nat => 1 in
  let recorded := [Step 5000 "mouse" [PInt 10; PInt 20; PButton Button_left];
                   Step 9000 "hotkey" [PStr "ctrl"; PStr "v"]] in
  let w := World 0 0 None [] in
  (forall n, 0 <= lat n) /\ recorded <> [] /\ Forall recorded_shape recorded /\
  ((exists w', play_macro lat (enough_fuel recorded) recorded "hi" w = Some (Returned w')) /\
   forall fuel w', play_macro lat fuel recorded "hi" w = Some (Returned w') ->
    (exists groups,
        trace w' = trace (pyperclip_copy lat "hi" w) ++ concat groups /\
        Forall2 (fun s grp => effects grp = replay_effects s /\
                              not_before (playback_start lat "hi" w) (step_t s) grp)
                recorded groups) /\
    forall s, last recorded = Some s ->
      step_t s <= now w' - playback_start lat "hi" w /\ step_t s <= now w' - now w).
Proof.
  intros lat recorded w.
  assert (Hlat : forall n, 0 <= lat n) by (intros n; unfold lat; lia).
  assert (Hne : recorded <> []) by discriminate.
  assert (Hshape : Forall recorded_shape recorded).
  { constructor; [|constructor; [|constructor]].
    - left. split; [reflexivity|]. by exists 10, 20, Button_left.
    - right. by split. }
  split; [exact Hlat|]. split; [exact Hne|]. split; [exact Hshape|].
  exact (play_macro_reaches_offsets lat Hlat recorded "hi" w Hne Hshape).
Defined.

Lemma play_macro_copy_then_replay_witness :
  let lat := fun _ : nat => 1 in
  let recorded := [Step 5000 "mouse" [PInt 10; PInt 20; PButton Button_left];
                   Step 9000 "hotkey" [PStr "ctrl"; PStr "v"]] in
  let w := World 0 0 None [] in
  (forall n, 0 <= lat n) /\ recorded <> [] /\ Forall recorded_shape recorded /\
  ((exists w', play_macro lat (enough_fuel recorded) recorded "hi" w = Some (Returned w')) /\
   forall fuel w', play_macro lat fuel recorded "hi" w = Some (Returned w') ->
    effects (trace w') =
      effects (trace w) ++ Copy "hi" :: flat_map replay_effects recorded /\
    clipboard w' = Some "hi").
Proof.
  intros lat recorded w.
  assert (Hlat : forall n, 0 <= lat n) by (intros n; unfold lat; lia).
  assert (Hne : recorded <> []) by discriminate.
  assert (Hshape : Forall recorded_shape recorded).
  { constructor; [|constructor; [|constructor]].
    - left. split; [reflexivity|]. by exists 10, 20, Button_left.
    - right. by split. }
  split; [exact Hlat|]. split; [exact Hne|]. split; [exact Hshape|].
  exact (play_macro_copy_then_replay lat Hlat recorded "hi" w Hne Hshape).
Defined.

(** With an empty macro list the call returns without touching the
    clipboard: the text is not placed there for every call. *)
Lemma play_macro_empty_skips_clipboard :
  let w := World 0 0 None [] in
  exists w', play_macro (fun _ => 0) 1 [] "hello" w = Some (Returned w') /\
    effects (trace w') <> effects (trace w) ++ Copy "hello" :: flat_map replay_effects [] /\
    clipboard w' <> Some "hello".
Proof.
  intros w. exists w. split; [reflexivity|]. split; simpl; discriminate.
Qed.

(* ================================================================== *)
(** * Recorder *)

Lemma on_click_shaped tm x y btn pressed g r :
  Forall recorded_shape (macro g) ->
  Forall recorded_shape (macro (fst (on_click tm x y btn pressed g r))).
Proof.
  intros H. unfold on_click.
  destruct (stop_record r); [done|]. destruct pressed; [|done].
  cbn [fst macro]. apply Forall_app. split; [done|].
  constructor; [|constructor]. left. split; [done|]. by exists x, y, btn.
Qed.

Lemma on_press_macro k g r : macro (fst (on_press k g r)) = macro g.
Proof. unfold on_press. by destruct (is_stop_key k). Qed.

Lemma on_release_shaped tm k g r :
  Forall recorded_shape (macro g) ->
  Forall recorded_shape (macro (fst (on_release tm k g r))).
Proof.
  intros H. unfold on_release. cbn [fst macro].
  destruct (is_paste_release k (_keys_held g)); [|done].
  apply Forall_app. split; [done|].
  constructor; [|constructor]. right. by split.
Qed.

Lemma _kill_press_macro k g : macro (fst (_kill_press k g)) = macro g.
Proof. unfold _kill_press. repeat case_decide; done. Qed.

Lemma with_recorder_shaped f al s :
  (forall g r, Forall recorded_shape (macro g) -> Forall recorded_shape (macro (fst (f g r)))) ->
  macro_shaped s -> macro_shaped (with_recorder f al s).
Proof.
  intros Hf Hs. unfold with_recorder.
  destruct (rec s) as [r|]; [|done]. destruct (al r); [|done].
  specialize (Hf (glob s) r Hs). by destruct (f (glob s) r).
Qed.

Lemma exec_call_shaped c s : macro_shaped s -> macro_shaped (exec_call c s).
Proof.
  intros Hs. unfold exec_call. destruct (proc s); [|done].
  destruct c as [tm|tm x y btn pressed|k|tm k|k|k].
  - unfold macro_shaped. simpl. constructor.
  - apply with_recorder_shaped; [|done]. intros; by apply on_click_shaped.
  - apply with_recorder_shaped; [|done]. intros g r Hg. by rewrite on_press_macro.
  - apply with_recorder_shaped; [|done]. intros; by apply on_release_shaped.
  - pose proof (_kill_press_macro k (glob s)) as Hm.
    destruct (_kill_press k (glob s)) as [g1 st]. unfold macro_shaped. simpl in *.
    by rewrite Hm.
  - done.
Qed.

Lemma exec_shaped cs : forall s, macro_shaped s -> macro_shaped (exec cs s).
Proof.
  induction cs as [|c cs IH]; intros s Hs; [done|].
  apply IH. by apply exec_call_shaped.
Qed.

(** C10: whatever calls the listeners have handled since the program
    started, every step in the macro list has one of the two recorded
    shapes; on each of them the player's case analysis takes the mouse
    branch with a successful three-way unpacking or the hotkey branch with
    [("ctrl", "v")], and a playback of the list never raises. *)
Theorem recorded_steps_covered (cs : list call) (lat : nat -> Z) :
  let m := macro (glob (exec cs boot)) in
  Forall recorded_shape m /\
  Forall (fun s => forall w,
            (step_type s = "mouse" /\
             exists x y b, step_data s = [x; y; b] /\
               play_step lat s w = Returned (pyautogui_click lat (pyautogui_moveTo lat x y w))) \/
            (step_type s = "hotkey" /\
             play_step lat s w = Returned (pyautogui_hotkey lat [PStr "ctrl"; PStr "v"] w))) m /\
  forall fuel text w,
    match play_macro lat fuel m text w with
    | Some (Raised _ _) => False
    | _ => True
    end.
Proof.
  intros m.
  assert (Hm : Forall recorded_shape m) by (apply (exec_shaped cs boot); constructor).
  split; [exact Hm|]. split.
  - eapply Forall_impl; [exact Hm|]. intros s Hs w. unfold play_step.
    destruct Hs as [[Ht (x & y & b & Hd)] | [Ht Hd]]; rewrite Ht, Hd; simpl.
    + left. split; [done|]. by exists (PInt x), (PInt y), (PButton b).
    + right. by split.
  - intros fuel text w. clearbody m. destruct m as [|s0 rest]; [done|].
    unfold play_macro. cbv zeta. unfold time_time.
    generalize (tick lat 0 (pyperclip_copy lat text w)) as w0.
    generalize (now (pyperclip_copy lat text w)) as t0.
    generalize dependent (s0 :: rest). clear.
    induction l as [|s rest IH]; intros Hm t0 w0; [done|].
    inversion Hm as [|? ? Hs Hrest]; subst. cbn [play_loop].
    destruct (wait_until lat fuel t0 (step_t s) w0) as [w1|]; [|done].
    destruct Hs as [[Ht (x & y & b & Hd)] | [Ht Hd]];
      unfold play_step; rewrite Ht, Hd; simpl; by apply IH.
Qed.

(* ------------------------------------------------------------------ *)
(** ** A new session starts from an empty list *)

(** C6: the first thing [record_macro] does is leave the macro list empty,
    so the session starts from the empty sequence, whatever the list held
    from earlier sessions; and what [record_macro] returns with does not
    depend on what the list held before the call. *)
Theorem record_macro_discards_prior (tm : Z) (ins : list input) (s : sys) (prior : list step) :
  proc s = Running ->
  macro (fst (record_macro_begin tm (glob (with_macro prior s)))) = [] /\
  macro (glob (exec_call (CRecord tm) (with_macro prior s))) = [] /\
  record_macro tm ins (with_macro prior s) = record_macro tm ins (with_macro [] s).
Proof.
  intros Hp. split; [reflexivity|].
  unfold record_macro, exec_call, with_macro. cbn [proc glob rec].
  rewrite Hp. by split.
Qed.

Lemma record_macro_discards_prior_witness :
  let old := [Step 100 "mouse" [PInt 1; PInt 2; PButton Button_left]] in
  let ins := [InClick 1500 30 40 Button_left true;
              InPress true (KeyCode (Some 83) (Some "s"));
              InClick 2500 0 0 Button_left true] in
  proc boot = Running /\
  (macro (fst (record_macro_begin 1000 (glob (with_macro old boot)))) = [] /\
   macro (glob (exec_call (CRecord 1000) (with_macro old boot))) = [] /\
   record_macro 1000 ins (with_macro old boot) = record_macro 1000 ins (with_macro [] boot)).
Proof.
  intros old ins. split; [reflexivity|].
  exact (record_macro_discards_prior 1000 ins boot old eq_refl).
Defined.

(** A session on top of an old list: one click, the stop key, and the click
    that lets the mouse listener stop; only the new click is in the list. *)
Example record_macro_session :
  option_map (fun r => macro (glob (fst r)))
    (record_macro 1000
       [InClick 1500 30 40 Button_left true;
        InPress true (KeyCode (Some 83) (Some "s"));
        InClick 2500 0 0 Button_left true]
       (with_macro [Step 100 "mouse" [PInt 1; PInt 2; PButton Button_left]] boot))
  = Some [Step 500 "mouse" [PInt 30; PInt 40; PButton Button_left]].
Proof. vm_compute. reflexivity. Qed.

(* ================================================================== *)
(** * Emergency kill *)

Lemma exec_app a b s : exec (a ++ b) s = exec b (exec a s).
Proof. unfold exec. apply fold_left_app. Qed.

(** The keys a recorder callback may add to the held set. *)
Lemma with_recorder_held f al s extra :
  (forall g r, proc s = Running -> _keys_held (fst (f g r)) ⊆ extra ∪ _keys_held g) ->
  proc s = Running ->
  proc (with_recorder f al s) = Running /\
  _keys_held (glob (with_recorder f al s)) ⊆ extra ∪ _keys_held (glob s).
Proof.
  intros Hf Hp. unfold with_recorder.
  destruct (rec s) as [r|]; [|split; [done|set_solver]].
  destruct (al r); [|split; [done|set_solver]].
  specialize (Hf (glob s) r Hp). destruct (f (glob s) r) as [g1 r1]. by split.
Qed.

Lemma on_click_held tm x y btn pressed g r :
  _keys_held (fst (on_click tm x y btn pressed g r)) = _keys_held g.
Proof. unfold on_click. destruct (stop_record r); [done|]. by destruct pressed. Qed.

Lemma on_press_held k g r :
  _keys_held (fst (on_press k g r)) ⊆ {[ canon k ]} ∪ _keys_held g.
Proof. unfold on_press. destruct (is_stop_key k); simpl; set_solver. Qed.

Lemma on_release_held tm k g r :
  _keys_held (fst (on_release tm k g r)) ⊆ _keys_held g.
Proof. unfold on_release. simpl. set_solver. Qed.

(** Calls other than the kill listener's press handler keep the process
    running and add at most the pressed key. *)
Lemma exec_call_other c s :
  proc s = Running ->
  (forall k, c <> CKillPress k) ->
  proc (exec_call c s) = Running /\
  _keys_held (glob (exec_call c s)) ⊆
    (match c with COnPress k => {[ canon k ]} | _ => ∅ end) ∪ _keys_held (glob s).
Proof.
  intros Hp Hc. unfold exec_call. rewrite Hp.
  destruct c as [tm|tm x y btn pressed|k|tm k|k|k].
  - simpl. split; [done|set_solver].
  - apply with_recorder_held; [|done]. intros g r _. rewrite on_click_held. set_solver.
  - apply with_recorder_held; [|done]. intros g r _. apply on_press_held.
  - apply with_recorder_held; [|done]. intros g r _.
    pose proof (on_release_held tm k g r). set_solver.
  - by destruct (Hc k).
  - simpl. split; [done|set_solver].
Qed.

Lemma exec_call_exited c s code : proc s = Exited code -> exec_call c s = s.
Proof. intros Hp. unfold exec_call. by rewrite Hp. Qed.

Lemma exec_exited cs : forall s code, proc s = Exited code -> exec cs s = s.
Proof.
  induction cs as [|c cs IH]; intros s code Hp; [done|].
  cbn [exec fold_left]. rewrite (exec_call_exited c s code Hp). by apply (IH s code).
Qed.

Lemma exec_running_back cs s : proc (exec cs s) = Running -> proc s = Running.
Proof.
  destruct (proc s) as [|code] eqn:Hp; [done|].
  rewrite (exec_exited cs s code Hp). congruence.
Qed.

(** A call that ends the process is the kill listener's, with status 1 and
    the combination held. *)
Lemma exec_call_exit c s code :
  proc s = Running -> proc (exec_call c s) = Exited code ->
  code = 1 /\ KILL_COMBO ⊆ _keys_held (glob (exec_call c s)).
Proof.
  intros Hp. destruct c as [tm|tm x y btn pressed|k|tm k|k|k];
    try (lazymatch goal with
         | |- proc (exec_call ?c _) = _ -> _ =>
             intros He; destruct (exec_call_other c s Hp) as [Hr _]; [done|congruence]
         end).
  unfold exec_call. rewrite Hp. unfold _kill_press.
  destruct (decide (canon k ∈ KILL_COMBO)); [|simpl; congruence].
  cbn [_keys_held].
  destruct (decide (KILL_COMBO ⊆ {[canon k]} ∪ _keys_held (glob s))); simpl; [|congruence].
  intros [= <-]. by split.
Qed.

Lemma exec_exit cs : forall s code,
  proc s = Running -> proc (exec cs s) = Exited code ->
  code = 1 /\ KILL_COMBO ⊆ _keys_held (glob (exec cs s)).
Proof.
  induction cs as [|c cs IH]; intros s code Hp He; [simpl in He; congruence|].
  cbn [exec fold_left] in *. fold (exec cs (exec_call c s)) in *.
  destruct (proc (exec_call c s)) as [|code1] eqn:Hp1.
  - by apply IH.
  - rewrite (exec_exited cs _ code1 Hp1) in *.
    apply exec_call_exit; [done|congruence].
Qed.

(** The press handler of the kill listener, given a key of the
    combination, exits exactly when the combination is complete after its
    own update. *)
Lemma kill_press_fires k s :
  (forall c, proc s = Exited c -> c = 1) ->
  canon k ∈ KILL_COMBO ->
  KILL_COMBO ⊆ _keys_held (glob (exec_call (CKillPress k) s)) ->
  proc (exec_call (CKillPress k) s) = Exited 1.
Proof.
  intros Hex Hk. unfold exec_call.
  destruct (proc s) as [|c] eqn:Hp.
  - unfold _kill_press. rewrite decide_True by done. cbn [_keys_held].
    destruct (decide (KILL_COMBO ⊆ {[canon k]} ∪ _keys_held (glob s))) as [Hs|Hs]; simpl.
    + done.
    + intros Hsub. by destruct Hs.
  - intros _. rewrite Hp. f_equal. by apply Hex.
Qed.

(** C9 (amended): in every run of the process, however the calls of the
    kill listener and of the recorder's callbacks interleave, whenever the
    kill listener has handled the press of a key of the kill combination
    and the held set then contains the whole combination, that handler has
    ended the process with status 1. *)
Theorem kill_press_completing_exits (cs : list call) (k : key) :
  canon k ∈ KILL_COMBO ->
  let s := exec (cs ++ [CKillPress k]) boot in
  KILL_COMBO ⊆ _keys_held (glob s) ->
  proc s = Exited 1.
Proof.
  intros Hk s. subst s. rewrite exec_app. cbn [exec fold_left].
  apply kill_press_fires; [|done].
  intros c Hc. by destruct (exec_exit cs boot c eq_refl Hc).
Qed.

Lemma kill_press_completing_exits_witness :
  let q := KeyCode (Some 113) (Some "q") in
  let cs := [CRecord 0; CKillPress (Special ctrl_l); COnPress (Special ctrl_l);
             COnPress (Special shift_l); COnPress q; CKillPress (Special shift_l)] in
  canon q ∈ KILL_COMBO /\
  KILL_COMBO ⊆ _keys_held (glob (exec (cs ++ [CKillPress q]) boot)) /\
  proc (exec (cs ++ [CKillPress q]) boot) = Exited 1.
Proof.
  intros q cs.
  assert (Hk : canon q ∈ KILL_COMBO).
  { apply (bool_decide_unpack _). vm_compute. exact I. }
  assert (Hheld : KILL_COMBO ⊆ _keys_held (glob (exec (cs ++ [CKillPress q]) boot))).
  { apply (bool_decide_unpack _). vm_compute. exact I. }
  split; [exact Hk|]. split; [exact Hheld|].
  exact (kill_press_completing_exits cs q Hk Hheld).
Defined.

(** The recorder's keyboard listener has run ahead: it has handled the
    presses of ['a'] and ['q'] while the kill listener is still to handle
    the press of ['a'].  When the kill listener has handled that press the
    held set contains the whole combination, and the process runs on: the
    handler looks at the held set only for a key of the combination. *)
Lemma kill_press_other_key_runs_on :
  let q := KeyCode (Some 113) (Some "q") in
  let a := KeyCode (Some 97) (Some "a") in
  let cs := [CRecord 0; CKillPress (Special ctrl_l); COnPress (Special ctrl_l);
             CKillPress (Special shift_l); COnPress (Special shift_l);
             COnPress a; COnPress q] in
  let s := exec (cs ++ [CKillPress a]) boot in
  KILL_COMBO ⊆ _keys_held (glob s) /\ proc s = Running /\ proc s <> Exited 1.
Proof.
  intros q a cs s. split; [|split].
  - apply (bool_decide_unpack _). vm_compute. exact I.
  - vm_compute. reflexivity.
  - vm_compute. discriminate.
Qed.

(** The key the keyboard delivers for ['q'] carries a virtual key code; it
    completes the combination all the same. *)
Example kill_press_delivered_q :
  proc (exec [CKillPress (Special ctrl_l); CKillPress (Special shift_l);
              CKillPress (KeyCode (Some 113) (Some "q"))] boot) = Exited 1.
Proof. vm_compute. reflexivity. Qed.

(* ================================================================== *)
(** * Voice recording *)

Lemma _audio_callback_flag x a :
  recording_flag (_audio_callback x a) = recording_flag a.
Proof. unfold _audio_callback. by destruct (recording_flag a) eqn:E. Qed.

Lemma _audio_callback_queue x a :
  audio_q (_audio_callback x a) = audio_q a ++ (if recording_flag a then [x] else []).
Proof.
  unfold _audio_callback. destruct (recording_flag a); [done|by rewrite app_nil_r].
Qed.

(** The queue is first-in first-out: what the loop has taken, followed by
    what is still queued, is what was queued plus what arrived, in order. *)
Lemma capture_loop_fifo : forall evs a c a' fr rest,
  capture_loop evs a c = Some (a', fr, rest) ->
  exists consumed,
    evs = consumed ++ rest /\
    fr ++ audio_q a' = frames c ++ audio_q a ++ enqueued consumed (recording_flag a).
Proof.
  induction evs as [|e evs IH]; intros a c a' fr rest H.
  - simpl in H. destruct (pc c); try discriminate.
    injection H as <- <- <-. exists []. by rewrite !app_nil_r.
  - cbn [capture_loop] in H.
    destruct (pc c) eqn:Hpc.
    + destruct e as [x|b|]; cbn [audio_step] in H.
      * apply IH in H as (consumed & -> & Hq). exists (Block x :: consumed).
        split; [done|]. rewrite Hq, _audio_callback_flag, _audio_callback_queue.
        cbn [enqueued]. destruct (recording_flag a); [|by rewrite app_nil_r].
        by rewrite <- !app_assoc.
      * apply IH in H as (consumed & -> & Hq). exists (SetFlag b :: consumed).
        split; [done|]. by rewrite Hq.
      * unfold capture_advance in H. rewrite Hpc in H.
        apply IH in H as (consumed & -> & Hq). exists (Advance :: consumed).
        split; [done|]. by rewrite Hq.
    + destruct e as [x|b|]; cbn [audio_step] in H.
      * apply IH in H as (consumed & -> & Hq). exists (Block x :: consumed).
        split; [done|]. rewrite Hq, _audio_callback_flag, _audio_callback_queue.
        cbn [enqueued]. destruct (recording_flag a); [|by rewrite app_nil_r].
        by rewrite <- !app_assoc.
      * apply IH in H as (consumed & -> & Hq). exists (SetFlag b :: consumed).
        split; [done|]. by rewrite Hq.
      * unfold capture_advance in H. rewrite Hpc in H.
        destruct (audio_q a) as [|x q] eqn:Hqa.
        -- apply IH in H as (consumed & -> & Hq). exists (Advance :: consumed).
           split; [done|]. rewrite Hq. cbn [frames enqueued]. by rewrite Hqa.
        -- apply IH in H as (consumed & -> & Hq). exists (Advance :: consumed).
           split; [done|]. rewrite Hq. cbn [frames enqueued audio_q recording_flag].
           by rewrite <- !app_assoc.
    + injection H as <- <- <-. exists []. by rewrite !app_nil_r.
Qed.

(** Once the flag is cleared, two more steps of the capturing thread end
    the loop, whatever came before. *)
Lemma capture_loop_stops rest : forall pre a c,
  exists res, capture_loop (pre ++ SetFlag false :: Advance :: Advance :: rest) a c = Some res.
Proof.
  induction pre as [|e pre IH]; intros a [[] fr].
  - destruct rest; cbn; eauto.
  - destruct rest; cbn; destruct (audio_q a); cbn; eauto.
  - cbn. eauto.
  - cbn [app capture_loop pc]. destruct (audio_step e a _) as [a1 c1]. apply IH.
  - cbn [app capture_loop pc]. destruct (audio_step e a _) as [a1 c1]. apply IH.
  - cbn. eauto.
Qed.

(** C4: when the loop ends with no block buffered, [record_until_toggle]
    returns [False] and the file system is the one it was given. *)
Theorem record_until_toggle_no_chunks path sr evs a fs a' rest :
  capture_loop evs a {| pc := AtWhile; frames := [] |} = Some (a', [], rest) ->
  record_until_toggle path sr evs a fs = Some (false, fs, a', rest).
Proof. intros H. unfold record_until_toggle. by rewrite H. Qed.

Lemma record_until_toggle_no_chunks_witness :
  let evs := [Advance; Advance; SetFlag false; Block [7; 8]; Advance] in
  let a := {| recording_flag := true; audio_q := [] |} in
  let a' := {| recording_flag := false; audio_q := [] |} in
  capture_loop evs a {| pc := AtWhile; frames := [] |} = Some (a', [], []) /\
  record_until_toggle "/tmp/x.wav" None evs a ∅ = Some (false, ∅, a', []).
Proof.
  intros evs a a'.
  assert (H : capture_loop evs a {| pc := AtWhile; frames := [] |} = Some (a', [], []))
    by reflexivity.
  split; [exact H|].
  exact (record_until_toggle_no_chunks "/tmp/x.wav" None evs a ∅ a' [] H).
Defined.

(** C8: when the loop ends with at least one block buffered, a call with
    the default rate writes at [path] a one-channel 16000 Hz waveform whose
    samples are the buffered blocks concatenated, returns [True], and the
    buffered blocks are the head of the queue in arrival order. *)
Theorem record_until_toggle_writes_wav path evs a fs a' fr rest :
  capture_loop evs a {| pc := AtWhile; frames := [] |} = Some (a', fr, rest) ->
  fr <> [] ->
  record_until_toggle path None evs a fs =
    Some (true, <[path := Wav 16000 1 (concat fr)]> fs, a', rest) /\
  exists consumed,
    evs = consumed ++ rest /\
    fr ++ audio_q a' = audio_q a ++ enqueued consumed (recording_flag a).
Proof.
  intros H Hne. split.
  - unfold record_until_toggle. rewrite H. by destruct fr.
  - apply capture_loop_fifo in H as (consumed & Hevs & Hq). by exists consumed.
Qed.

Lemma record_until_toggle_writes_wav_witness :
  let evs := [Advance; Block [1; 2]; Block [3]; Advance; Advance; Advance;
              SetFlag false; Advance; Advance] in
  let a := {| recording_flag := true; audio_q := [] |} in
  let a' := {| recording_flag := false; audio_q := [] |} in
  let fr := [[1; 2]; [3]] in
  capture_loop evs a {| pc := AtWhile; frames := [] |} = Some (a', fr, [Advance]) /\
  fr <> [] /\
  (record_until_toggle "/tmp/x.wav" None evs a ∅ =
     Some (true, <["/tmp/x.wav" := Wav 16000 1 (concat fr)]> ∅, a', [Advance]) /\
   exists consumed,
     evs = consumed ++ [Advance] /\
     fr ++ audio_q a' = audio_q a ++ enqueued consumed (recording_flag a)).
Proof.
  intros evs a a' fr.
  assert (H : capture_loop evs a {| pc := AtWhile; frames := [] |} = Some (a', fr, [Advance]))
    by reflexivity.
  assert (Hne : fr <> []) by discriminate.
  split; [exact H|]. split; [exact Hne|].
  exact (record_until_toggle_writes_wav "/tmp/x.wav" evs a ∅ a' fr [Advance] H Hne).
Defined.

(* ================================================================== *)
(** * Transcription client *)

Lemma send_audio_answered post path fs f r :
  fs !! path = Some f -> post f = Some r ->
  send_audio post path fs = text_of_response r.
Proof. intros Hf Hr. unfold send_audio. by rewrite Hf, Hr. Qed.

Lemma text_of_response_object r :
  ok r = false \/ (exists d, body r = Some (JObj d)) ->
  text_of_response r = Value (if ok r then default ERR (text_field r) else ERR).
Proof.
  unfold text_of_response, text_field.
  intros [Hok | [d Hd]].
  - by rewrite Hok.
  - rewrite Hd. by destruct (ok r).
Qed.

(** C5 (amended): for an answer that is unsuccessful or carries a JSON
    object, [send_audio] returns the sentinel when the answer is not
    successful or the object has no ['text'], and the value of ['text']
    otherwise; hence it returns the sentinel exactly when the answer is not
    successful, ['text'] is missing, or the value of ['text'] is the
    sentinel itself. *)
Theorem send_audio_sentinel post path fs f r :
  fs !! path = Some f ->
  post f = Some r ->
  ok r = false \/ (exists d, body r = Some (JObj d)) ->
  (ok r = false \/ text_field r = None -> send_audio post path fs = Value ERR) /\
  (forall v, ok r = true -> text_field r = Some v -> send_audio post path fs = Value v) /\
  (send_audio post path fs = Value ERR <->
     ok r = false \/ text_field r = None \/ text_field r = Some ERR).
Proof.
  intros Hf Hr Hshape.
  rewrite (send_audio_answered post path fs f r Hf Hr).
  rewrite (text_of_response_object r Hshape).
  destruct (ok r) eqn:Hok.
  - split; [|split].
    + intros [Hk|Hn]; [done|]. by rewrite Hn.
    + intros v _ Hv. by rewrite Hv.
    + destruct (text_field r) as [v|]; cbn [default].
      * split.
        -- intros [= ->]. right. by right.
        -- intros [Hk|[Hn|[= ->]]]; done.
      * split; [|done]. intros _. right. by left.
  - split; [done|]. split; [done|]. split; [|done]. intros _. by left.
Qed.

Lemma send_audio_sentinel_witness :
  let f := Wav 16000 1 [1; 2; 3] in
  let fs : gmap string file := {[ "/tmp/a.wav" := f ]} in
  let r := {| ok := true; body := Some (JObj [("text", JStr "hello")]) |} in
  let post := fun _ : file => Some r in
  fs !! "/tmp/a.wav" = Some f /\
  post f = Some r /\
  (ok r = false \/ (exists d, body r = Some (JObj d))) /\
  ((ok r = false \/ text_field r = None -> send_audio post "/tmp/a.wav" fs = Value ERR) /\
   (forall v, ok r = true -> text_field r = Some v -> send_audio post "/tmp/a.wav" fs = Value v) /\
   (send_audio post "/tmp/a.wav" fs = Value ERR <->
      ok r = false \/ text_field r = None \/ text_field r = Some ERR)).
Proof.
  intros f fs r post.
  assert (Hf : fs !! "/tmp/a.wav" = Some f) by reflexivity.
  assert (Hr : post f = Some r) by reflexivity.
  assert (Hshape : ok r = false \/ (exists d, body r = Some (JObj d))).
  { right. by exists [("text", JStr "hello")]. }
  split; [exact Hf|]. split; [exact Hr|]. split; [exact Hshape|].
  exact (send_audio_sentinel post "/tmp/a.wav" fs f r Hf Hr Hshape).
Defined.

(** A successful answer whose ['text'] is the string ["<err>"]: the
    sentinel comes back although the answer is successful and has the
    field, so the sentinel is not returned only on failure or a missing
    field. *)
Lemma send_audio_sentinel_from_text :
  let f := Wav 16000 1 [1; 2; 3] in
  let fs : gmap string file := {[ "/tmp/a.wav" := f ]} in
  let r := {| ok := true; body := Some (JObj [("text", JStr "<err>")]) |} in
  let post := fun _ : file => Some r in
  ~ (send_audio post "/tmp/a.wav" fs = Value ERR <-> (ok r = false \/ text_field r = None)).
Proof.
  intros f fs r post [Hto _].
  assert (Hs : send_audio post "/tmp/a.wav" fs = Value ERR) by reflexivity.
  destruct (Hto Hs) as [Hk|Hn]; discriminate.
Qed.

(** A successful answer whose body is not JSON makes [r.json()] raise. *)
Example send_audio_body_not_json :
  send_audio (fun _ => Some {| ok := true; body := None |}) "/tmp/a.wav"
             {[ "/tmp/a.wav" := Bytes [] ]} = Throw JSONDecodeError.
Proof. reflexivity. Qed.

(* ================================================================== *)
(** * Transcription service *)

Section ServiceFacts.

Variable splitext_ext : string -> string.
Variable strip : string -> string.

(** C3: whenever the handler answers with the transcription or with the
    error response for a failed transcription, the temporary file it
    created for the upload is no longer in the file system, and nothing
    else has changed there. *)
Theorem transcribe_audio_removes_temp env up fs fs' res :
  transcribe_audio splitext_ext strip env up fs = (fs', res) ->
  (exists text, res = JSONResponse text) \/ (exists detail, res = HTTPException 500 detail) ->
  exists name,
    filename up = Some name /\
    fs' !! temp_path_of splitext_ext env name = None /\
    fs' = delete (temp_path_of splitext_ext env name) fs.
Proof.
  unfold transcribe_audio. intros H Hres.
  destruct (filename up) as [name|].
  2:{ injection H as <- <-. destruct Hres as [[? ?]|[? ?]]; discriminate. }
  destruct (copy_error env) as [[e n]|].
  { injection H as <- <-. destruct Hres as [[? ?]|[? ?]]; discriminate. }
  exists name. split; [done|].
  rewrite decide_True in H by (rewrite lookup_insert_eq; eauto).
  injection H as <- _.
  split; [apply lookup_delete_eq|].
  by rewrite insert_insert_eq, delete_insert_eq.
Qed.

(** Both outcomes of the transcription lead to one of the two answers. *)
Lemma transcribe_audio_answers env up fs name :
  filename up = Some name -> copy_error env = None ->
  let temp_path := temp_path_of splitext_ext env name in
  snd (transcribe_audio splitext_ext strip env up fs) =
    match transcribe env temp_path (<[temp_path := Bytes (upload_content up)]> fs) with
    | inl text => JSONResponse (strip text)
    | inr e => HTTPException 500 ("Transcription failed: " ++ e)%string
    end.
Proof.
  intros Hn Hc. unfold transcribe_audio. rewrite Hn, Hc. cbn [snd].
  by rewrite insert_insert_eq.
Qed.

(** When copying the upload fails, the exception leaves the handler before
    the cleanup is reached and the temporary file stays, holding what had
    been copied. *)
Lemma transcribe_audio_copy_failure env up fs name e n :
  filename up = Some name -> copy_error env = Some (e, n) ->
  transcribe_audio splitext_ext strip env up fs =
    (<[temp_path_of splitext_ext env name := Bytes (take n (upload_content up))]> fs,
     Uncaught e).
Proof.
  intros Hn Hc. unfold transcribe_audio. rewrite Hn, Hc. by rewrite insert_insert_eq.
Qed.

End ServiceFacts.

Lemma transcribe_audio_removes_temp_witness :
  let ext := fun _ : string => ".wav" in
  let strip := fun s : string => s in
  let env := {| tmp_name := "/tmp/tmpk3"; copy_error := None;
                transcribe := fun _ _ => inr "model failed" |} in
  let up := {| filename := Some "hello world.wav"; upload_content := [82; 73; 70; 70] |} in
  let fs : gmap string file := {[ "/srv/keep" := Bytes [1] ]} in
  let res := HTTPException 500 "Transcription failed: model failed" in
  transcribe_audio ext strip env up fs = (fs, res) /\
  ((exists text, res = JSONResponse text) \/ (exists detail, res = HTTPException 500 detail)) /\
  exists name,
    filename up = Some name /\
    fs !! temp_path_of ext env name = None /\
    fs = delete (temp_path_of ext env name) fs.
Proof.
  intros ext strip env up fs res.
  assert (H : transcribe_audio ext strip env up fs = (fs, res)) by (vm_compute; reflexivity).
  assert (Hres : (exists text, res = JSONResponse text) \/
                 (exists detail, res = HTTPException 500 detail)).
  { right. by exists "Transcription failed: model failed". }
  split; [exact H|]. split; [exact Hres|].
  exact (transcribe_audio_removes_temp ext strip env up fs fs res H Hres).
Defined.

(** The same request when the model answers: the text comes back and the
    temporary file is gone as well. *)
Example transcribe_audio_success :
  transcribe_audio (fun _ => ".wav") (fun s => s)
    {| tmp_name := "/tmp/tmpk3"; copy_error := None; transcribe := fun _ _ => inl "hello world" |}
    {| filename := Some "hello world.wav"; upload_content := [82; 73; 70; 70] |}
    {[ "/srv/keep" := Bytes [1] ]}
  = ({[ "/srv/keep" := Bytes [1] ]}, JSONResponse "hello world").
Proof. vm_compute. reflexivity. Qed.

(* ================================================================== *)
(** * Further properties: emergency kill *)

(** X2: no listener callback ends the process unless the kill combination
    is complete: whatever the listeners have handled since the start, if
    one of them has ended the process, it did so with status 1 and with
    every key of the combination in the held set.  (Ways for the process to
    end that are not a listener's doing are not part of this model.) *)
Theorem exit_only_by_kill_combo (cs : list call) (code : Z) :
  proc (exec cs boot) = Exited code ->
  code = 1 /\ KILL_COMBO ⊆ _keys_held (glob (exec cs boot)).
Proof. by apply exec_exit. Qed.

Lemma exit_only_by_kill_combo_witness :
  let q := KeyCode (Some 113) (Some "q") in
  let cs := [CKillPress (Special shift_l); CKillPress q; COnClick 5 1 1 Button_left true;
             CKillPress (Special ctrl_l); CKillRelease q] in
  proc (exec cs boot) = Exited 1 /\
  (1 = 1 /\ KILL_COMBO ⊆ _keys_held (glob (exec cs boot))).
Proof.
  intros q cs.
  assert (H : proc (exec cs boot) = Exited 1) by (vm_compute; reflexivity).
  split; [exact H|]. exact (exit_only_by_kill_combo cs 1 H).
Defined.

(** What a call leaves in the held set: everything but a released key. *)
Lemma exec_call_keeps c s x :
  proc s = Running ->
  x ∈ _keys_held (glob s) ->
  (forall tm k, c = COnRelease tm k -> canon k <> x) ->
  (forall k, c = CKillRelease k -> canon k <> x) ->
  x ∈ _keys_held (glob (exec_call c s)).
Proof.
  intros Hp Hx Hc1 Hc2. unfold exec_call. rewrite Hp.
  destruct c as [tm|tm x0 y btn pressed|k'|tm k'|k'|k']; simpl.
  - done.
  - unfold with_recorder. destruct (rec s) as [r|]; [|done].
    destruct (ml_alive r); [|done].
    pose proof (on_click_held tm x0 y btn pressed (glob s) r) as Hh.
    destruct (on_click tm x0 y btn pressed (glob s) r). simpl in *. by rewrite Hh.
  - unfold with_recorder. destruct (rec s) as [r|]; [|done].
    destruct (kl_alive r); [|done]. unfold on_press.
    destruct (is_stop_key k'); simpl; [done|set_solver].
  - unfold with_recorder. destruct (rec s) as [r|]; [|done].
    destruct (kl_alive r); [|done]. unfold on_release. simpl.
    specialize (Hc1 tm k' eq_refl). set_solver.
  - unfold _kill_press. destruct (decide (canon k' ∈ KILL_COMBO)); [|done].
    cbn [_keys_held]. case_decide; simpl; set_solver.
  - specialize (Hc2 k' eq_refl). set_solver.
Qed.

(** While the process runs on after the kill listener handled the press
    of a combination key, that key is held and the combination is not
    complete. *)
Lemma kill_press_running k s :
  proc s = Running -> canon k ∈ KILL_COMBO ->
  proc (exec_call (CKillPress k) s) = Running ->
  canon k ∈ _keys_held (glob (exec_call (CKillPress k) s)) /\
  ~ KILL_COMBO ⊆ _keys_held (glob (exec_call (CKillPress k) s)).
Proof.
  intros Hp Hk. unfold exec_call. rewrite Hp. unfold _kill_press.
  rewrite decide_True by done. cbn [_keys_held].
  destruct (decide (KILL_COMBO ⊆ {[canon k]} ∪ _keys_held (glob s))); simpl; [congruence|].
  intros _. split; [set_solver|done].
Qed.

Lemma exec_snoc cs c s : exec (cs ++ [c]) s = exec_call c (exec cs s).
Proof. by rewrite exec_app. Qed.

(** The combination keys whose press the kill listener has handled are
    held, as long as no listener handled a release of one. *)
Lemma kill_pressed_held s : forall cs,
  Forall keeps_combo cs ->
  proc (exec cs s) = Running ->
  forall k, In (CKillPress k) cs -> canon k ∈ KILL_COMBO ->
    canon k ∈ _keys_held (glob (exec cs s)).
Proof.
  induction cs as [|c cs IH] using rev_ind; intros Hkeep Hr k Hin Hk; [done|].
  rewrite exec_snoc in *.
  apply Forall_app in Hkeep as [Hkeep Hc]. inversion Hc as [|? ? Hkc _]; subst.
  pose proof (exec_running_back [c] _ Hr) as Hmid.
  apply in_app_or in Hin as [Hin|[->|[]]].
  - apply exec_call_keeps; [done|by apply IH| |].
    + intros tm k0 -> Heq. simpl in Hkc. by rewrite Heq in Hkc.
    + intros k0 -> Heq. simpl in Hkc. by rewrite Heq in Hkc.
  - by apply kill_press_running.
Qed.

Lemma combo_missing (H : gset key) :
  ~ KILL_COMBO ⊆ H -> exists k, k ∈ KILL_COMBO /\ k ∉ H.
Proof.
  intros Hn.
  destruct (decide (Special ctrl_l ∈ H)) as [H1|H1];
    [|exists (Special ctrl_l); split; [unfold KILL_COMBO; set_solver|done]].
  destruct (decide (Special shift_l ∈ H)) as [H2|H2];
    [|exists (Special shift_l); split; [unfold KILL_COMBO; set_solver|done]].
  destruct (decide (KeyCode None (Some "q") ∈ H)) as [H3|H3];
    [|exists (KeyCode None (Some "q")); split; [unfold KILL_COMBO; set_solver|done]].
  destruct Hn. unfold KILL_COMBO. set_solver.
Qed.

(** While the process runs, the kill listener has not yet handled the
    press of some key of the combination. *)
Lemma running_misses_a_press s : forall cs,
  Forall keeps_combo cs ->
  proc (exec cs s) = Running ->
  exists k, k ∈ KILL_COMBO /\ forall k', In (CKillPress k') cs -> canon k' <> k.
Proof.
  induction cs as [|c cs IH] using rev_ind; intros Hkeep Hr.
  - exists (Special ctrl_l). split; [unfold KILL_COMBO; set_solver|]. by intros k' [].
  - pose proof Hkeep as Hkeep'. apply Forall_app in Hkeep' as [Hkeep0 _].
    pose proof Hr as Hr'. rewrite exec_snoc in Hr'.
    pose proof (exec_running_back [c] _ Hr') as Hmid.
    destruct (IH Hkeep0 Hmid) as (k0 & Hk0 & Hnone).
    assert (Hold : (forall k1, c = CKillPress k1 -> canon k1 ∉ KILL_COMBO) ->
              exists k, k ∈ KILL_COMBO /\
                forall k', In (CKillPress k') (cs ++ [c]) -> canon k' <> k).
    { intros Hc. exists k0. split; [done|]. intros k' Hin.
      apply in_app_or in Hin as [Hin|[->|[]]]; [by apply Hnone|].
      intros Heq. apply (Hc k' eq_refl). by rewrite Heq. }
    destruct c as [tm|tm x y btn pressed|k1|tm k1|k1|k1]; try (apply Hold; discriminate).
    destruct (decide (canon k1 ∈ KILL_COMBO)) as [Hk1|Hk1];
      [|apply Hold; by intros ? [= <-]].
    destruct (kill_press_running k1 _ Hmid Hk1 Hr') as [_ Hn].
    destruct (combo_missing _ Hn) as (k & Hk & Hknot).
    exists k. split; [done|]. intros k' Hin Heq. apply Hknot.
    rewrite <- exec_snoc, <- Heq.
    apply kill_pressed_held; [done|done|done|]. by rewrite Heq.
Qed.

(** X1: from any running state and however the calls of the two
    listeners interleave: once the kill listener has handled the press of
    every key of its combination, and neither listener has handled the
    release of a combination key meanwhile, the process has exited with
    status 1, whatever else was clicked, pressed, released or recorded. *)
Theorem kill_combo_pressed_exits (cs : list call) (s : sys) :
  proc s = Running ->
  Forall keeps_combo cs ->
  (forall k, k ∈ KILL_COMBO -> exists k', canon k' = k /\ In (CKillPress k') cs) ->
  proc (exec cs s) = Exited 1.
Proof.
  intros Hp Hkeep Hall.
  destruct (proc (exec cs s)) as [|code] eqn:Hf.
  - exfalso. destruct (running_misses_a_press s cs Hkeep Hf) as (k & Hk & Hnone).
    destruct (Hall k Hk) as (k' & Heq & Hin). by apply (Hnone k' Hin).
  - f_equal. by destruct (exec_exit cs s code Hp Hf).
Qed.

Lemma kill_combo_pressed_exits_witness :
  let q := KeyCode (Some 113) (Some "q") in
  let v := KeyCode (Some 86) (Some "v") in
  let cs := [CRecord 0; COnPress q; CKillPress q; COnClick 3 10 10 Button_left true;
             COnPress (Special shift_l); COnPress (Special ctrl_l);
             CKillPress (Special shift_l); COnRelease 4 v; CKillRelease v;
             CKillPress (Special ctrl_l); COnPress (KeyCode (Some 97) (Some "a"))] in
  proc boot = Running /\
  Forall keeps_combo cs /\
  (forall k, k ∈ KILL_COMBO -> exists k', canon k' = k /\ In (CKillPress k') cs) /\
  proc (exec cs boot) = Exited 1.
Proof.
  intros q v cs.
  assert (Hp : proc boot = Running) by reflexivity.
  assert (Hv : canon v ∉ KILL_COMBO).
  { apply (bool_decide_unpack _). vm_compute. exact I. }
  assert (Hkeep : Forall keeps_combo cs).
  { repeat (constructor; [first [exact I | exact Hv]|]). constructor. }
  assert (Hall : forall k, k ∈ KILL_COMBO -> exists k', canon k' = k /\ In (CKillPress k') cs).
  { intros k Hk. unfold KILL_COMBO in Hk.
    apply elem_of_union in Hk as [Hk|Hk]; [apply elem_of_union in Hk as [Hk|Hk]|];
      apply elem_of_singleton in Hk; subst k.
    - exists (Special ctrl_l). split; [done|]. simpl. tauto.
    - exists (Special shift_l). split; [done|]. simpl. tauto.
    - exists q. split; [done|]. simpl. tauto. }
  split; [exact Hp|]. split; [exact Hkeep|]. split; [exact Hall|].
  exact (kill_combo_pressed_exits cs boot Hp Hkeep Hall).
Defined.

(* ================================================================== *)
(** * Further properties: recorder *)






Lemma mouse_listening_waits s : mouse_listening s -> alive s && session_over s = false.
Proof.
  intros [Ha|(r & Hr & Hml)].
  - by rewrite Ha.
  - unfold session_over. rewrite Hr, Hml. simpl. by rewrite andb_false_r.
Qed.

Lemma exec_call_mouse_listening c s :
  call_time c = None \/ (exists tm k, c = COnRelease tm k) ->
  mouse_listening s -> mouse_listening (exec_call c s).
Proof.
  intros Hc Hs. unfold exec_call.
  destruct (proc s) as [|code] eqn:Hp; [|done].
  destruct Hs as [Ha|(r & Hr & Hml)]; [unfold alive in Ha; by rewrite Hp in Ha|].
  unfold mouse_listening, alive.
  destruct c as [tm|tm x y btn pressed|k|tm k|k|k].
  - right. simpl. eauto.
  - destruct Hc as [Hc|(? & ? & Hc)]; discriminate.
  - right. unfold with_recorder. rewrite Hr.
    destruct (kl_alive r); [|eauto].
    unfold on_press. destruct (is_stop_key k); simpl; eauto.
  - right. unfold with_recorder. rewrite Hr.
    destruct (kl_alive r); [|eauto].
    unfold on_release. simpl. eauto.
  - destruct (_kill_press k (glob s)) as [g1 [|code]]; simpl; [right; eauto|by left].
  - right. simpl. eauto.
Qed.

Lemma dispatch_mouse_listening i s :
  is_InClick i = false -> mouse_listening s -> mouse_listening (exec (dispatch i) s).
Proof.
  intros Hi Hs.
  destruct i as [tm|tm x y btn pressed|[] k|[] tm k|c]; try discriminate;
    cbn [dispatch exec fold_left];
    try (repeat (apply exec_call_mouse_listening; [simpl; eauto|]); done).
  apply exec_call_mouse_listening; [|done].
  destruct c; try discriminate; simpl; eauto.
Qed.

Lemma join_listeners_waits : forall ins s,
  Forall (fun i => is_InClick i = false) ins ->
  mouse_listening s -> join_listeners ins s = None.
Proof.
  induction ins as [|i ins IH]; intros s Hins Hs; cbn [join_listeners];
    rewrite (mouse_listening_waits s Hs); [done|].
  inversion Hins as [|? ? Hi Hrest]; subst.
  apply IH; [done|]. by apply dispatch_mouse_listening.
Qed.

(** X4: [record_macro] does not return on the stop key alone: as long as
    no mouse event arrives its mouse listener keeps running and the join
    keeps waiting, whatever keys are pressed or released. *)
Theorem record_macro_waits_for_click (tm : Z) (ins : list input) (s : sys) :
  Forall (fun i => is_InClick i = false) ins ->
  record_macro tm ins s = None.
Proof.
  intros Hins. unfold record_macro. apply join_listeners_waits; [done|].
  unfold exec_call, mouse_listening, alive.
  destruct (proc s) as [|code] eqn:Hp; [|rewrite Hp; by left].
  right. simpl. eauto.
Qed.

Lemma record_macro_waits_for_click_witness :
  let ins := [InPress true (Special ctrl_l); InRelease true 120 (KeyCode (Some 86) (Some "v"));
              InRelease false 130 (Special ctrl_l); InPress false (KeyCode (Some 83) (Some "s"))] in
  Forall (fun i => is_InClick i = false) ins /\
  record_macro 100 ins boot = None.
Proof.
  intros ins.
  assert (Hins : Forall (fun i => is_InClick i = false) ins) by (repeat constructor).
  split; [exact Hins|]. exact (record_macro_waits_for_click 100 ins boot Hins).
Defined.

(** The converse side of the join: the stop key followed by any mouse
    event ends the session. *)
Example record_macro_returns_after_click :
  option_map (fun r => session_over (fst r))
    (record_macro 100 [InPress true (KeyCode (Some 83) (Some "s")); InClick 140 0 0 Button_left false] boot)
  = Some true.
Proof. vm_compute. reflexivity. Qed.

Lemma ascending_weaken lo lo' l : lo' <= lo -> ascending lo l -> ascending lo' l.
Proof. destruct l as [|x l]; simpl; [done|]. intros Hle [Hx Hl]. split; [lia|done]. Qed.







(* ================================================================== *)
(** * Further properties: playback *)

Lemma play_step_with_button lat v s w :
  play_step lat (with_button v s) w = play_step lat s w.
Proof.
  unfold with_button, play_step.
  destruct (String.eqb (step_type s) "mouse") eqn:Hm; [|by rewrite Hm].
  destruct (step_data s) as [|x [|y [|b [|]]]] eqn:Hd; simpl; rewrite ?Hm, ?Hd; done.
Qed.

Lemma step_t_with_button v s : step_t (with_button v s) = step_t s.
Proof.
  unfold with_button. destruct (String.eqb (step_type s) "mouse"); [|done].
  by destruct (step_data s) as [|x [|y [|b [|]]]].
Qed.

Lemma play_loop_with_button lat fuel t0 v : forall steps w,
  play_loop lat fuel t0 (map (with_button v) steps) w = play_loop lat fuel t0 steps w.
Proof.
  induction steps as [|s rest IH]; intros w; [done|].
  cbn [map play_loop]. rewrite step_t_with_button.
  destruct (wait_until lat fuel t0 (step_t s) w) as [w1|]; [|done].
  rewrite play_step_with_button. destruct (play_step lat s w1); [apply IH|done].
Qed.

(** X6: the button stored in a mouse step plays no part in the replay:
    two lists that differ only in the recorded buttons are played back
    identically (the click is always the default one). *)
Theorem replay_ignores_button (lat : nat -> Z) (fuel : nat) (v : pyval)
    (m : list step) (text : string) (w : world) :
  play_macro lat fuel (map (with_button v) m) text w = play_macro lat fuel m text w.
Proof.
  destruct m as [|s rest]; [done|].
  unfold play_macro. cbn [map]. cbv zeta. unfold time_time.
  apply (play_loop_with_button lat fuel _ v (s :: rest)).
Qed.

Section PlaybackMore.

Variable lat : nat -> Z.
Hypothesis lat_nonneg : forall n, 0 <= lat n.

Lemma play_step_unpackable s w :
  unpackable s = true -> exists w', play_step lat s w = Returned w'.
Proof.
  unfold unpackable, play_step.
  destruct (String.eqb (step_type s) "mouse").
  - destruct (step_data s) as [|x [|y [|b [|]]]]; try discriminate. eauto.
  - destruct (String.eqb (step_type s) "hotkey"); eauto.
Qed.

Lemma play_step_malformed s w :
  unpackable s = false -> play_step lat s w = Raised ValueError w.
Proof.
  unfold unpackable, play_step.
  destruct (String.eqb (step_type s) "mouse"); [|discriminate].
  by destruct (step_data s) as [|x [|y [|b [|]]]].
Qed.

Lemma play_loop_unpackable f t0 : forall steps w,
  forallb unpackable steps = true ->
  Forall (fun s => step_t s <= SLEEP_STEP * Z.of_nat f) steps ->
  t0 <= now w ->
  exists w', play_loop lat (S f) t0 steps w = Some (Returned w').
Proof.
  induction steps as [|s rest IH]; intros w Hun Hoff Ht0.
  - simpl. eauto.
  - cbn [forallb] in Hun. apply andb_prop in Hun as [Hs Hrest].
    inversion Hoff as [|? ? Ho Horest]; subst.
    destruct (wait_until_total lat lat_nonneg f t0 (step_t s) w) as [w1 Hw1]; [lia|].
    destruct (play_step_unpackable s w1 Hs) as [w2 Hw2].
    cbn [play_loop]. rewrite Hw1, Hw2.
    apply IH; try done.
    apply (wait_until_exit lat lat_nonneg) in Hw1 as (_ & Hm1 & _).
    apply (play_step_returned lat lat_nonneg) in Hw2 as (_ & _ & _ & _ & Hm2 & _). lia.
Qed.

Lemma play_loop_malformed f t0 s post : forall pre w,
  forallb unpackable pre = true ->
  unpackable s = false ->
  Forall (fun s => step_t s <= SLEEP_STEP * Z.of_nat f) (pre ++ [s]) ->
  t0 <= now w ->
  exists w', play_loop lat (S f) t0 (pre ++ s :: post) w = Some (Raised ValueError w') /\
    effects (trace w') = effects (trace w) ++ flat_map replay_effects pre /\
    clipboard w' = clipboard w.
Proof.
  induction pre as [|p pre IH]; intros w Hun Hs Hoff Ht0.
  - inversion Hoff as [|? ? Ho _]; subst.
    destruct (wait_until_total lat lat_nonneg f t0 (step_t s) w) as [w1 Hw1]; [lia|].
    exists w1. cbn [app play_loop]. rewrite Hw1, (play_step_malformed s w1 Hs).
    apply (wait_until_exit lat lat_nonneg) in Hw1 as (_ & _ & Htr & Hcl).
    split; [done|]. rewrite Htr, Hcl. simpl. by rewrite app_nil_r.
  - cbn [forallb] in Hun. apply andb_prop in Hun as [Hp Hpre].
    cbn [app] in Hoff. inversion Hoff as [|? ? Ho Horest]; subst.
    destruct (wait_until_total lat lat_nonneg f t0 (step_t p) w) as [w1 Hw1]; [lia|].
    destruct (play_step_unpackable p w1 Hp) as [w2 Hw2].
    cbn [app play_loop]. rewrite Hw1, Hw2.
    apply (wait_until_exit lat lat_nonneg) in Hw1 as (_ & Hm1 & Htr1 & Hcl1).
    apply (play_step_returned lat lat_nonneg) in Hw2
      as (grp & Htr2 & Heff & _ & Hm2 & Hcl2).
    destruct (IH w2 Hpre Hs Horest) as (w' & Hrun & Htr & Hcl); [lia|].
    exists w'. split; [done|]. split; [|congruence].
    rewrite Htr, Htr2, Htr1. unfold effects in *. rewrite map_app, Heff.
    cbn [flat_map]. by rewrite <- app_assoc.
Qed.

Lemma play_macro_nonempty fuel m text w :
  m <> [] ->
  play_macro lat fuel m text w =
    play_loop lat fuel (now (pyperclip_copy lat text w)) m
      (tick lat 0 (pyperclip_copy lat text w)).
Proof. by destruct m. Qed.

(** X8: when a mouse step does not carry three values, the playback
    raises at the first such step: by then the text is on the clipboard and
    exactly the steps before it have been replayed, none after it. *)
Theorem play_macro_raises_at_first_malformed (pre post : list step) (s : step)
    (text : string) (w : world) :
  forallb unpackable pre = true ->
  unpackable s = false ->
  exists w',
    play_macro lat (enough_fuel (pre ++ s :: post)) (pre ++ s :: post) text w
      = Some (Raised ValueError w') /\
    effects (trace w') = effects (trace w) ++ Copy text :: flat_map replay_effects pre /\
    clipboard w' = Some text.
Proof.
  intros Hpre Hs.
  rewrite play_macro_nonempty by (by destruct pre).
  pose proof (enough_fuel_bound (pre ++ s :: post)) as Hb.
  unfold enough_fuel.
  set (f := Z.to_nat (foldr (fun s m => Z.max (step_t s) m) 0 (pre ++ s :: post))) in *.
  set (w2 := tick lat 0 (pyperclip_copy lat text w)).
  assert (Ht0 : now (pyperclip_copy lat text w) <= now w2).
  { subst w2. simpl. pose proof (lat_nonneg (S (ops w))). lia. }
  assert (Hb' : Forall (fun s => step_t s <= SLEEP_STEP * Z.of_nat f) (pre ++ [s])).
  { apply Forall_app in Hb as [Hb1 Hb2].
    apply Forall_app. split; [done|]. inversion Hb2; subst. by constructor. }
  destruct (play_loop_malformed _ _ s post pre w2 Hpre Hs Hb' Ht0) as (w' & Hw' & Htr & Hcl).
  exists w'. split; [exact Hw'|]. split.
  - rewrite Htr. subst w2. cbn [tick trace pyperclip_copy emit].
    unfold effects. rewrite !map_app. cbn [map snd]. by rewrite <- app_assoc.
  - rewrite Hcl. reflexivity.
Qed.

End PlaybackMore.

Lemma play_macro_raises_at_first_malformed_witness :
  let lat := fun _ : nat => 1 in
  let pre := [Step 0 "hotkey" [PStr "ctrl"; PStr "v"]; Step 5 "scroll" [PInt 1]] in
  let s := Step 10 "mouse" [PInt 1] in
  let post := [Step 20 "mouse" [PInt 1; PInt 2; PButton Button_left]] in
  let w := World 0 0 None [] in
  (forall n, 0 <= lat n) /\
  forallb unpackable pre = true /\
  unpackable s = false /\
  exists w',
    play_macro lat (enough_fuel (pre ++ s :: post)) (pre ++ s :: post) "hi" w
      = Some (Raised ValueError w') /\
    effects (trace w') = effects (trace w) ++ Copy "hi" :: flat_map replay_effects pre /\
    clipboard w' = Some "hi".
Proof.
  intros lat pre s post w.
  assert (Hlat : forall n, 0 <= lat n) by (intros n; unfold lat; lia).
  assert (Hpre : forallb unpackable pre = true) by reflexivity.
  assert (Hs : unpackable s = false) by reflexivity.
  split; [exact Hlat|]. split; [exact Hpre|]. split; [exact Hs|].
  exact (play_macro_raises_at_first_malformed lat Hlat pre post s "hi" w Hpre Hs).
Defined.

(* ================================================================== *)
(** * Further properties: voice recording *)

Lemma capture_loop_running : forall evs a c,
  recording_flag a = true -> pc c <> AfterLoop ->
  Forall (fun e => e <> SetFlag false) evs ->
  capture_loop evs a c = None.
Proof.
  induction evs as [|e evs IH]; intros a c Hflag Hpc Hevs.
  - simpl. by destruct (pc c).
  - inversion Hevs as [|? ? He Hrest]; subst.
    cbn [capture_loop].
    destruct (pc c) eqn:Hc; [| |done].
    + destruct e as [x|b|]; cbn [audio_step].
      * apply IH; [by rewrite _audio_callback_flag|by rewrite Hc|done].
      * destruct b; [|done]. apply IH; [done|by rewrite Hc|done].
      * unfold capture_advance. rewrite Hc, Hflag. by apply IH.
    + destruct e as [x|b|]; cbn [audio_step].
      * apply IH; [by rewrite _audio_callback_flag|by rewrite Hc|done].
      * destruct b; [|done]. apply IH; [done|by rewrite Hc|done].
      * unfold capture_advance. rewrite Hc.
        destruct (audio_q a); by apply IH.
Qed.

(** X10: a capture entered with the flag set does not return as long as
    nothing clears the flag, however many blocks arrive and however often
    the queue read times out. *)
Theorem record_until_toggle_keeps_capturing (path : string) (sr : option Z)
    (evs : list audio_event) (a : audio) (fs : gmap string file) :
  recording_flag a = true ->
  Forall (fun e => e <> SetFlag false) evs ->
  record_until_toggle path sr evs a fs = None.
Proof.
  intros Hflag Hevs. unfold record_until_toggle.
  by rewrite (capture_loop_running evs a _ Hflag).
Qed.

Lemma record_until_toggle_keeps_capturing_witness :
  let evs := [Advance; Block [1]; Advance; Advance; Advance; SetFlag true; Block [2; 3]; Advance] in
  let a := {| recording_flag := true; audio_q := [[9]] |} in
  recording_flag a = true /\
  Forall (fun e => e <> SetFlag false) evs /\
  record_until_toggle "/tmp/x.wav" None evs a ∅ = None.
Proof.
  intros evs a.
  assert (Hf : recording_flag a = true) by reflexivity.
  assert (He : Forall (fun e => e <> SetFlag false) evs) by (repeat constructor; discriminate).
  split; [exact Hf|]. split; [exact He|].
  exact (record_until_toggle_keeps_capturing "/tmp/x.wav" None evs a ∅ Hf He).
Defined.

(** X11: once the flag is cleared and not set again, the capture returns
    within two further steps of the capturing thread, whatever happened
    before; it leaves the events after those steps unconsumed. *)
Theorem record_until_toggle_stops_after_clear (path : string) (sr : option Z)
    (pre rest : list audio_event) (a : audio) (fs : gmap string file) :
  exists b fs' a' left,
    record_until_toggle path sr (pre ++ SetFlag false :: Advance :: Advance :: rest) a fs
      = Some (b, fs', a', left) /\
    exists used, pre ++ SetFlag false :: Advance :: Advance :: rest = used ++ left /\
                 (length rest <= length left)%nat.
Proof.
  unfold record_until_toggle.
  destruct (capture_loop_stops rest pre a {| pc := AtWhile; frames := [] |})
    as [[[a' fr] left] Hres].
  rewrite Hres.
  assert (Hsuffix : forall evs a c a' fr left,
            capture_loop evs a c = Some (a', fr, left) ->
            exists used, evs = used ++ left).
  { intros evs a0 c a0' fr0 left0 H.
    apply capture_loop_fifo in H as (used & H & _). by exists used. }
  assert (Hlen : forall pre a c a' fr left,
            capture_loop (pre ++ SetFlag false :: Advance :: Advance :: rest) a c
              = Some (a', fr, left) -> (length rest <= length left)%nat).
  { clear. induction pre as [|e pre IH]; intros a [[] fr0] a' fr left H.
    - destruct rest; cbn in H; injection H as <- <- <-; simpl; lia.
    - destruct rest; cbn in H; destruct (audio_q a); cbn in H;
        injection H as <- <- <-; simpl; lia.
    - cbn in H. injection H as <- <- <-. simpl. lia.
    - cbn [app capture_loop pc] in H. destruct (audio_step e a _) as [a1 c1]. by eapply IH.
    - cbn [app capture_loop pc] in H. destruct (audio_step e a _) as [a1 c1]. by eapply IH.
    - cbn in H. injection H as <- <- <-. simpl. rewrite length_app. simpl. lia. }
  destruct (Hsuffix _ _ _ _ _ _ Hres) as [used Hused].
  specialize (Hlen _ _ _ _ _ _ Hres).
  destruct fr as [|x fr]; do 4 eexists; (split; [reflexivity|]); exists used; by split.
Qed.

Lemma enqueued_app c1 : forall c2 flag,
  enqueued (c1 ++ c2) flag = enqueued c1 flag ++ enqueued c2 (flag_after c1 flag).
Proof.
  induction c1 as [|e c1 IH]; intros c2 flag; [done|].
  destruct e as [x|b|]; cbn [app enqueued flag_after].
  - destruct flag; by rewrite IH.
  - apply IH.
  - apply IH.
Qed.

Lemma capture_loop_flag : forall evs a c a' fr rest,
  capture_loop evs a c = Some (a', fr, rest) ->
  exists consumed,
    evs = consumed ++ rest /\
    recording_flag a' = flag_after consumed (recording_flag a).
Proof.
  induction evs as [|e evs IH]; intros a c a' fr rest H.
  - simpl in H. destruct (pc c); try discriminate.
    injection H as <- <- <-. by exists [].
  - cbn [capture_loop] in H.
    assert (Hstep : forall a1 c1,
              audio_step e a c = (a1, c1) ->
              capture_loop evs a1 c1 = Some (a', fr, rest) ->
              exists consumed, e :: evs = consumed ++ rest /\
                recording_flag a' = flag_after consumed (recording_flag a)).
    { intros a1 c1 He Hr. apply IH in Hr as (consumed & -> & Hf).
      exists (e :: consumed). split; [done|]. rewrite Hf.
      destruct e as [x|b|]; cbn [audio_step flag_after] in *.
      - injection He as <- _. by rewrite _audio_callback_flag.
      - by injection He as <- _.
      - unfold capture_advance in He. destruct (pc c).
        + by injection He as <- _.
        + destruct (audio_q a); by injection He as <- _.
        + by injection He as <- _. }
    destruct (pc c).
    + destruct (audio_step e a c) as [a1 c1] eqn:He. by apply (Hstep a1 c1).
    + destruct (audio_step e a c) as [a1 c1] eqn:He. by apply (Hstep a1 c1).
    + injection H as <- <- <-. by exists [].
Qed.

(** X12: the queue is never drained or reset between captures: over two
    captures in a row, the blocks the first buffered, then those the second
    buffered, then those still queued are exactly the blocks queued at the
    start followed by the blocks the callback accepted, in order; a block
    left over by the first capture opens the second one. *)
Theorem captures_share_queue (evs rest1 rest2 : list audio_event)
    (a a1 a2 : audio) (fr1 fr2 : list chunk) :
  capture_loop evs a {| pc := AtWhile; frames := [] |} = Some (a1, fr1, rest1) ->
  capture_loop rest1 a1 {| pc := AtWhile; frames := [] |} = Some (a2, fr2, rest2) ->
  exists consumed,
    evs = consumed ++ rest2 /\
    fr1 ++ fr2 ++ audio_q a2 = audio_q a ++ enqueued consumed (recording_flag a).
Proof.
  intros H1 H2.
  destruct (capture_loop_fifo _ _ _ _ _ _ H1) as (c1 & Hev1 & Hq1).
  destruct (capture_loop_flag _ _ _ _ _ _ H1) as (c1' & Hev1' & Hf1).
  assert (c1' = c1) by (apply (app_inv_tail rest1); congruence). subst c1'.
  destruct (capture_loop_fifo _ _ _ _ _ _ H2) as (c2 & Hev2 & Hq2).
  exists (c1 ++ c2). split.
  - rewrite Hev1, Hev2. by rewrite app_assoc.
  - simpl in Hq1, Hq2. rewrite enqueued_app, <- Hf1.
    rewrite Hq2, (app_assoc fr1), Hq1. by rewrite <- app_assoc.
Qed.

Lemma captures_share_queue_witness :
  let evs := [Advance; Block [1]; Block [2]; Advance; SetFlag false; Block [3]; Advance;
              SetFlag true; Advance; Block [4]; Advance; Advance; Advance; SetFlag false;
              Advance; Advance] in
  let a := {| recording_flag := true; audio_q := [] |} in
  let rest1 := [SetFlag true; Advance; Block [4]; Advance; Advance; Advance; SetFlag false;
                Advance; Advance] in
  let a1 := {| recording_flag := false; audio_q := [[2]] |} in
  let a2 := {| recording_flag := false; audio_q := [] |} in
  capture_loop evs a {| pc := AtWhile; frames := [] |} = Some (a1, [[1]], rest1) /\
  capture_loop rest1 a1 {| pc := AtWhile; frames := [] |} = Some (a2, [[2]; [4]], [Advance]) /\
  exists consumed,
    evs = consumed ++ [Advance] /\
    [[1]] ++ [[2]; [4]] ++ audio_q a2 = audio_q a ++ enqueued consumed (recording_flag a).
Proof.
  intros evs a rest1 a1 a2.
  assert (H1 : capture_loop evs a {| pc := AtWhile; frames := [] |} = Some (a1, [[1]], rest1))
    by reflexivity.
  assert (H2 : capture_loop rest1 a1 {| pc := AtWhile; frames := [] |}
               = Some (a2, [[2]; [4]], [Advance])) by reflexivity.
  split; [exact H1|]. split; [exact H2|].
  exact (captures_share_queue evs rest1 [Advance] a a1 a2 [[1]] [[2]; [4]] H1 H2).
Defined.

(* ================================================================== *)
(** * Further properties: the capture, upload and playback thread *)

Lemma record_until_toggle_file path sr evs a fs b fs' a' rest :
  record_until_toggle path sr evs a fs = Some (b, fs', a', rest) ->
  (forall q, q <> path -> fs' !! q = fs !! q) /\
  (b = false -> fs' = fs) /\
  (b = true -> exists samples, fs' !! path = Some (Wav (default DEFAULT_SR sr) 1 samples)).
Proof.
  unfold record_until_toggle.
  destruct (capture_loop evs a _) as [[[a1 fr] rest1]|]; [|discriminate].
  destruct fr as [|x fr].
  - intros [= <- <- <- <-]. split; [done|]. split; [done|discriminate].
  - intros [= <- <- <- <-]. split; [|split; [discriminate|]].
    + intros q Hq. by rewrite lookup_insert_ne.
    + intros _. eexists. by rewrite lookup_insert_eq.
Qed.

(** X13: what [process_audio_flow] leaves of its temporary file.  No other
    path is touched.  A cancelled recording leaves the empty file behind;
    an upload that raises leaves the recording behind; in every other
    ending the file has been removed.  The playback world is untouched
    unless a playback was started. *)
Theorem process_audio_flow_temp_file (lat : nat -> Z) (fuel : nat)
    (post : file -> option response) (stem : string) (evs rest : list audio_event)
    (m : list step) (d d' : desk) (e : flow_end) :
  process_audio_flow lat fuel post stem evs m d = Some (e, d', rest) ->
  let wav_path := (stem ++ ".wav")%string in
  (forall q, q <> wav_path -> desk_fs d' !! q = desk_fs d !! q) /\
  match e with
  | FlowCancelled =>
      desk_fs d' !! wav_path = Some (Bytes []) /\ desk_world d' = desk_world d
  | FlowUploadRaised _ =>
      (exists samples, desk_fs d' !! wav_path = Some (Wav 16000 1 samples)) /\
      desk_world d' = desk_world d
  | FlowNotText _ =>
      desk_fs d' !! wav_path = None /\ desk_world d' = desk_world d
  | FlowDone | FlowPlaybackRaised _ =>
      desk_fs d' !! wav_path = None
  end.
Proof.
  unfold process_audio_flow. cbv zeta.
  set (p := (stem ++ ".wav")%string).
  destruct (record_until_toggle p None evs (desk_audio d) _)
    as [[[[b fs2] a2] rest2]|] eqn:Hrec; [|discriminate].
  apply record_until_toggle_file in Hrec as (Hother & Hfalse & Htrue).
  assert (Hframe : forall q, q <> p -> fs2 !! q = desk_fs d !! q).
  { intros q Hq. rewrite (Hother q Hq). by rewrite lookup_insert_ne. }
  assert (Hdel : forall q, q <> p -> delete p fs2 !! q = desk_fs d !! q).
  { intros q Hq. rewrite lookup_delete_ne by done. by apply Hframe. }
  destruct b.
  - destruct (send_audio post p fs2) as [v|ex].
    + destruct v as [| | |txt| |];
        try (intros [= <- <- <-]; simpl; split; [done|];
             split; [apply lookup_delete_eq|done]).
      destruct (play_macro lat fuel m txt (desk_world d)) as [[w1|ex w1]|]; [| |discriminate];
        intros [= <- <- <-]; simpl; (split; [done|]); apply lookup_delete_eq.
    + intros [= <- <- <-]. simpl. split; [done|]. split; [|done].
      destruct (Htrue eq_refl) as [samples Hs]. by exists samples.
  - intros [= <- <- <-]. simpl. split; [done|]. split; [|done].
    rewrite (Hfalse eq_refl). apply lookup_insert_eq.
Qed.

Lemma process_audio_flow_temp_file_witness :
  let lat := fun _ : nat => 0 in
  let post := fun _ : file => @None response in
  let evs := [Advance; Block [1; 2]; Advance; SetFlag false; Advance] in
  let m := [Step 0 "hotkey" [PStr "ctrl"; PStr "v"]] in
  let g := {| listen_btn := TkButton "🔴  Recording…" COL_PRIMARY_2 NORMAL;
              copy_btn := TkButton "📋  Copy Transcript" COL_CARD NORMAL;
              status_lbl := "🎙  Listening…  press Space to stop";
              txtbox := ""; txtbox_state := DISABLED |} in
  let d := {| desk_fs := ∅; desk_audio := {| recording_flag := true; audio_q := [] |};
              desk_gui := g; desk_world := World 0 0 None [] |} in
  let d' := {| desk_fs := {[ "/tmp/tmpq7.wav" := Wav 16000 1 [1; 2] ]};
               desk_audio := {| recording_flag := false; audio_q := [] |};
               desk_gui := g; desk_world := World 0 0 None [] |} in
  process_audio_flow lat 3 post "/tmp/tmpq7" evs m d = Some (FlowUploadRaised ConnectionError, d', []) /\
  ((forall q, q <> "/tmp/tmpq7.wav" -> desk_fs d' !! q = desk_fs d !! q) /\
   ((exists samples, desk_fs d' !! "/tmp/tmpq7.wav" = Some (Wav 16000 1 samples)) /\
    desk_world d' = desk_world d)).
Proof.
  intros lat post evs m g d d'.
  assert (H : process_audio_flow lat 3 post "/tmp/tmpq7" evs m d
              = Some (FlowUploadRaised ConnectionError, d', [])) by (vm_compute; reflexivity).
  split; [exact H|].
  exact (process_audio_flow_temp_file lat 3 post "/tmp/tmpq7" evs [] m d d'
           (FlowUploadRaised ConnectionError) H).
Defined.

Section FlowFacts.

Variable lat : nat -> Z.
Hypothesis lat_nonneg : forall n, 0 <= lat n.

Lemma play_macro_effects fuel m text w w' :
  play_macro lat fuel m text w = Some (Returned w') ->
  effects (trace w') =
    effects (trace w) ++
    match m with [] => [] | _ :: _ => Copy text :: flat_map replay_effects m end /\
  clipboard w' = match m with [] => clipboard w | _ :: _ => Some text end.
Proof.
  destruct m as [|s0 rest].
  - intros [= <-]. by rewrite app_nil_r.
  - unfold play_macro. cbv zeta. unfold time_time. intros H.
    apply (play_loop_returned lat lat_nonneg) in H as (groups & Htr & Hall & _ & Hcl & _).
    split; [|by rewrite Hcl].
    rewrite Htr. cbn [tick trace pyperclip_copy emit].
    unfold effects. rewrite !map_app. cbn [map snd].
    rewrite <- app_assoc. cbn [app]. do 2 f_equal.
    clear -Hall. induction Hall as [|s grp ss gs [He _] _ IH]; [done|].
    cbn [concat flat_map]. rewrite map_app, IH. f_equal. exact He.
Qed.

(** X14: when [process_audio_flow] runs to its end, at least one block
    was captured and the file uploaded was the one-channel 16000 Hz
    waveform of the captured blocks concatenated; the text shown in the
    text box is what [send_audio] made of the server's answer to it: the
    string under ['text'] of a successful answer, or the sentinel for an
    unsuccessful answer or a missing ['text']; and the playback it ran used
    that same string: with a non-empty macro list the clipboard holds it
    and the injected inputs are those of the list, in order. *)
Theorem process_audio_flow_done (fuel : nat) (post : file -> option response)
    (stem : string) (evs rest : list audio_event) (m : list step) (d d' : desk) :
  process_audio_flow lat fuel post stem evs m d = Some (FlowDone, d', rest) ->
  exists (txt : string) (a2 : audio) (fr : list chunk) (r : response),
    capture_loop evs (desk_audio d) {| pc := AtWhile; frames := [] |} = Some (a2, fr, rest) /\
    fr <> [] /\
    post (Wav 16000 1 (concat fr)) = Some r /\
    ((ok r = true /\ text_field r = Some (JStr txt)) \/
     (txt = "<err>" /\ (ok r = false \/ text_field r = None))) /\
    txtbox (desk_gui d') = txt /\
    txtbox_state (desk_gui d') = DISABLED /\
    status_lbl (desk_gui d') = "✅  Done. Ready." /\
    play_macro lat fuel m txt (desk_world d) = Some (Returned (desk_world d')) /\
    effects (trace (desk_world d')) =
      effects (trace (desk_world d)) ++
      match m with [] => [] | _ :: _ => Copy txt :: flat_map replay_effects m end /\
    clipboard (desk_world d') =
      match m with [] => clipboard (desk_world d) | _ :: _ => Some txt end.
Proof.
  unfold process_audio_flow, record_until_toggle. cbv zeta.
  set (p := (stem ++ ".wav")%string).
  destruct (capture_loop evs (desk_audio d) _) as [[[a2 fr] rest2]|] eqn:Hcap; [|discriminate].
  destruct fr as [|x fr]; [discriminate|].
  unfold send_audio. rewrite lookup_insert_eq.
  unfold DEFAULT_SR, STREAM_CHANNELS. cbn [default].
  destruct (post (Wav 16000 1 (concat (x :: fr)))) as [r|] eqn:Hpost; [|discriminate].
  destruct (text_of_response r) as [v|ex] eqn:Hr; [|discriminate].
  destruct v as [| | |txt| |]; try discriminate.
  destruct (play_macro lat fuel m txt (desk_world d)) as [[w1|ex w1]|] eqn:Hplay;
    try discriminate.
  intros [= <- <-]. simpl.
  destruct (play_macro_effects fuel m txt _ _ Hplay) as [Heff Hcl].
  exists txt, a2, (x :: fr), r.
  split; [done|]. split; [done|]. split; [done|]. split; [|by repeat split].
  unfold text_of_response, text_field in *.
  destruct (ok r).
  - destruct (body r) as [[| | | | |d0]|]; try discriminate.
    destruct (dict_get "text" d0) as [v|]; cbn [default] in Hr; unfold ERR in Hr.
    + left. split; [done|]. by injection Hr as ->.
    + right. injection Hr as <-. split; [done|]. by right.
  - right. unfold ERR in Hr. injection Hr as <-. split; [done|]. by left.
Qed.

End FlowFacts.

Lemma process_audio_flow_done_witness :
  let lat := fun _ : nat => 0 in
  let r := {| ok := true; body := Some (JObj [("text", JStr "hello")]) |} in
  let post := fun _ : file => Some r in
  let evs := [Advance; Block [1; 2]; Advance; SetFlag false; Advance] in
  let m := [Step 0 "hotkey" [PStr "ctrl"; PStr "v"]] in
  let g := {| listen_btn := TkButton "🔴  Recording…" COL_PRIMARY_2 NORMAL;
              copy_btn := TkButton "📋  Copy Transcript" COL_CARD NORMAL;
              status_lbl := "🎙  Listening…  press Space to stop";
              txtbox := ""; txtbox_state := DISABLED |} in
  let d := {| desk_fs := ∅; desk_audio := {| recording_flag := true; audio_q := [] |};
              desk_gui := g; desk_world := World 0 0 None [] |} in
  let g' := {| listen_btn := TkButton "🎤  Listen" COL_PRIMARY NORMAL;
               copy_btn := TkButton "📋  Copy Transcript" COL_CARD NORMAL;
               status_lbl := "✅  Done. Ready.";
               txtbox := "hello"; txtbox_state := DISABLED |} in
  let d' := {| desk_fs := ∅; desk_audio := {| recording_flag := false; audio_q := [] |};
               desk_gui := g';
               desk_world := World 0 4 (Some "hello")
                               [(0, Copy "hello"); (0, Hotkey [PStr "ctrl"; PStr "v"])] |} in
  (forall n, 0 <= lat n) /\
  process_audio_flow lat 3 post "/tmp/tmpq7" evs m d = Some (FlowDone, d', []) /\
  exists (txt : string) (a2 : audio) (fr : list chunk) (r : response),
    capture_loop evs (desk_audio d) {| pc := AtWhile; frames := [] |} = Some (a2, fr, []) /\
    fr <> [] /\
    post (Wav 16000 1 (concat fr)) = Some r /\
    ((ok r = true /\ text_field r = Some (JStr txt)) \/
     (txt = "<err>" /\ (ok r = false \/ text_field r = None))) /\
    txtbox (desk_gui d') = txt /\
    txtbox_state (desk_gui d') = DISABLED /\
    status_lbl (desk_gui d') = "✅  Done. Ready." /\
    play_macro lat 3 m txt (desk_world d) = Some (Returned (desk_world d')) /\
    effects (trace (desk_world d')) =
      effects (trace (desk_world d)) ++
      match m with [] => [] | _ :: _ => Copy txt :: flat_map replay_effects m end /\
    clipboard (desk_world d') =
      match m with [] => clipboard (desk_world d) | _ :: _ => Some txt end.
Proof.
  intros lat r post evs m g d g' d'.
  assert (Hlat : forall n, 0 <= lat n) by (intros n; unfold lat; lia).
  assert (H : process_audio_flow lat 3 post "/tmp/tmpq7" evs m d = Some (FlowDone, d', []))
    by (vm_compute; reflexivity).
  split; [exact Hlat|]. split; [exact H|].
  exact (process_audio_flow_done lat Hlat 3 post "/tmp/tmpq7" evs [] m d d' H).
Defined.

(* ================================================================== *)
(** * Further properties: steps of other types *)

Section SkippedSteps.

Variable lat : nat -> Z.
Hypothesis lat_nonneg : forall n, 0 <= lat n.

Lemma recorded_or_skipped_unpackable s :
  recorded_shape s \/ skipped_type s = true -> unpackable s = true.
Proof.
  unfold unpackable, skipped_type.
  intros [[[Ht (x & y & b & Hd)] | [Ht Hd]] | Hs].
  - by rewrite Ht, Hd.
  - by rewrite Ht.
  - by destruct (String.eqb (step_type s) "mouse").
Qed.

Lemma replay_effects_skipped s : skipped_type s = true -> replay_effects s = [].
Proof.
  unfold skipped_type, replay_effects.
  destruct (String.eqb (step_type s) "mouse"); [done|].
  by destruct (String.eqb (step_type s) "hotkey").
Qed.

Lemma replay_effects_filter m :
  flat_map replay_effects (List.filter (fun s => negb (skipped_type s)) m) =
  flat_map replay_effects m.
Proof.
  induction m as [|s m IH]; [done|]. cbn [List.filter flat_map].
  destruct (skipped_type s) eqn:Hs; simpl.
  - by rewrite (replay_effects_skipped s Hs).
  - by rewrite IH.
Qed.

(** X7: a step whose type is neither ["mouse"] nor ["hotkey"] is waited
    for and then skipped.  For a list made of recorded steps and of such
    steps, the playback returns, and what it has injected is the text on
    the clipboard followed by the inputs of the recorded steps alone, in
    list order. *)
Theorem play_macro_skips_other_types (m : list step) (text : string) (w : world) :
  Forall (fun s => recorded_shape s \/ skipped_type s = true) m ->
  exists w',
    play_macro lat (enough_fuel m) m text w = Some (Returned w') /\
    effects (trace w') =
      effects (trace w) ++
      match m with
      | [] => []
      | _ :: _ =>
          Copy text ::
          flat_map replay_effects (List.filter (fun s => negb (skipped_type s)) m)
      end.
Proof.
  intros Hm.
  assert (Hun : forallb unpackable m = true).
  { apply forallb_forall. intros s Hs. apply recorded_or_skipped_unpackable.
    rewrite List.Forall_forall in Hm. by apply Hm. }
  assert (Hret : exists w', play_macro lat (enough_fuel m) m text w = Some (Returned w')).
  { destruct m as [|s0 rest]; [by exists w|].
    unfold play_macro. cbv zeta. unfold time_time.
    apply (play_loop_unpackable lat lat_nonneg); [done|apply enough_fuel_bound|].
    simpl. pose proof (lat_nonneg (S (ops w))). lia. }
  destruct Hret as [w' Hw']. exists w'. split; [done|].
  destruct (play_macro_effects lat lat_nonneg _ _ _ _ _ Hw') as [Heff _].
  rewrite Heff. destruct m; [done|]. by rewrite replay_effects_filter.
Qed.

End SkippedSteps.

Lemma play_macro_skips_other_types_witness :
  let lat := fun _ : nat => 1 in
  let m := [Step 10 "scroll" [PInt 3]; Step 2500 "hotkey" [PStr "ctrl"; PStr "v"];
            Step 2600 "key" []; Step 3000 "mouse" [PInt 1; PInt 2; PButton Button_right]] in
  let w := World 0 0 None [] in
  (forall n, 0 <= lat n) /\
  Forall (fun s => recorded_shape s \/ skipped_type s = true) m /\
  exists w',
    play_macro lat (enough_fuel m) m "hi" w = Some (Returned w') /\
    effects (trace w') =
      effects (trace w) ++
      Copy "hi" :: flat_map replay_effects (List.filter (fun s => negb (skipped_type s)) m).
Proof.
  intros lat m w.
  assert (Hlat : forall n, 0 <= lat n) by (intros n; unfold lat; lia).
  assert (Hm : Forall (fun s => recorded_shape s \/ skipped_type s = true) m).
  { constructor; [by right|]. constructor; [left; right; by split|].
    constructor; [by right|]. constructor; [|constructor].
    left. left. split; [done|]. by exists 1, 2, Button_right. }
  split; [exact Hlat|]. split; [exact Hm|].
  exact (play_macro_skips_other_types lat Hlat m "hi" w Hm).
Defined.

(* ================================================================== *)
(** * Further properties: the Listen toggle *)

Lemma toggle_recording_flag m a g :
  recording_flag (fst (fst (toggle_recording m a g))) = snd (toggle_recording m a g) /\
  (recording_flag a = true -> snd (toggle_recording m a g) = false) /\
  (snd (toggle_recording m a g) = true -> m <> []) /\
  audio_q (fst (fst (toggle_recording m a g))) = audio_q a.
Proof.
  unfold toggle_recording. destruct (recording_flag a) eqn:Hf; [done|].
  destruct m; simpl; repeat split; try done.
Qed.

(** X15: over any number of uses of the Listen control, whatever the
    macro list is at each use: two uses in a row never both start a capture
    thread; a thread is started only with a non-empty macro list; the flag
    ends as the last use left it, set exactly when that use started a
    thread; and the queue is not touched. *)
Theorem toggle_run_alternates : forall (ms : list (list step)) (a : audio) (g : gui),
  let '(a', _, started) := toggle_run ms a g in
  alternating (recording_flag a) started /\
  recording_flag a' = default (recording_flag a) (last started) /\
  audio_q a' = audio_q a /\
  Forall2 (fun m b => b = true -> m <> []) ms started.
Proof.
  induction ms as [|m rest IH]; intros a g; [simpl; by repeat split|].
  cbn [toggle_run].
  pose proof (toggle_recording_flag m a g) as (Hflag & Hstop & Hne & Hq).
  destruct (toggle_recording m a g) as [[a1 g1] started]. simpl in *.
  specialize (IH a1 g1). destruct (toggle_run rest a1 g1) as [[a2 g2] later].
  destruct IH as (Halt & Hlast & Hq2 & Hall). rewrite Hflag in Halt, Hlast.
  split; [|split; [|split]].
  - simpl. split; [|done]. destruct (recording_flag a); [by rewrite Hstop|done].
  - rewrite Hlast. destruct later as [|b l]; [done|].
    change (last (started :: b :: l)) with (last (b :: l)).
    destruct (last (b :: l)) eqn:E; [done|]. by apply last_None in E.
  - congruence.
  - by constructor.
Qed.

(* ================================================================== *)
(** * Further properties: client and service *)

Section ServiceMore.

Variable splitext_ext : string -> string.
Variable strip : string -> string.


(** X19: the client against this service.  Whatever file the client
    uploads, [send_audio] does not raise: it returns the stripped text when
    the model produced one, and the sentinel both when the model failed and
    when the service could not copy the upload; the service's error detail
    never reaches the caller. *)
Theorem send_audio_to_service (env : request_env) (name : string)
    (encode : file -> list Z) (sfs fs : gmap string file) (path : string) (f : file) :
  fs !! path = Some f ->
  let temp_path := temp_path_of splitext_ext env name in
  send_audio (post_to_service splitext_ext strip env name encode sfs) path fs =
    Value match copy_error env with
          | Some _ => ERR
          | None =>
              match transcribe env temp_path (<[temp_path := Bytes (encode f)]> sfs) with
              | inl text => JStr (strip text)
              | inr _ => ERR
              end
          end.
Proof.
  intros Hf. cbv zeta. unfold send_audio, post_to_service, transcribe_audio.
  rewrite Hf. cbn [filename upload_content].
  destruct (copy_error env) as [[e n]|]; [done|].
  cbn [snd]. rewrite insert_insert_eq.
  by destruct (transcribe env _ _).
Qed.

End ServiceMore.

Lemma send_audio_to_service_witness :
  let ext := fun _ : string => ".wav" in
  let strip := fun s : string => s in
  let env := {| tmp_name := "/tmp/tmpk3"; copy_error := None;
                transcribe := fun _ _ => inr "CUDA out of memory" |} in
  let f := Wav 16000 1 [1; 2; 3] in
  let fs : gmap string file := {[ "/tmp/a.wav" := f ]} in
  let encode := fun _ : file => [82; 73; 70; 70] in
  fs !! "/tmp/a.wav" = Some f /\
  send_audio (post_to_service ext strip env "a.wav" encode ∅) "/tmp/a.wav" fs = Value ERR.
Proof.
  intros ext strip env f fs encode.
  assert (Hf : fs !! "/tmp/a.wav" = Some f) by reflexivity.
  split; [exact Hf|].
  exact (send_audio_to_service ext strip env "a.wav" encode ∅ fs "/tmp/a.wav" f Hf).
Defined.

(* ================================================================== *)
(** * Further properties: what the kill listener keeps *)

Lemma kill_call_held c s :
  is_kill_call c = true ->
  _keys_held (glob s) ⊆ KILL_COMBO ->
  _keys_held (glob (exec_call c s)) ⊆ KILL_COMBO.
Proof.
  intros Hc Hs. unfold exec_call. destruct (proc s); [|done].
  destruct c as [tm|tm x y btn pressed|k|tm k|k|k]; try discriminate.
  - unfold _kill_press. destruct (decide (canon k ∈ KILL_COMBO)) as [Hk|Hk]; [|done].
    cbn [_keys_held].
    destruct (decide (KILL_COMBO ⊆ {[canon k]} ∪ _keys_held (glob s))); simpl;
      intros z Hz; apply elem_of_union in Hz as [Hz|Hz];
      try (apply elem_of_singleton in Hz; by subst z); by apply Hs.
  - simpl. intros z Hz. apply elem_of_difference in Hz as [Hz _]. by apply Hs.
Qed.

(** X18: on its own the kill listener remembers nothing but keys of its
    combination: after any presses and releases it has handled, with no
    recorder callback in between, every held key is (as the set tells keys
    apart) a key of [KILL_COMBO]. *)
Theorem kill_listener_holds_combo_keys_only (cs : list call) :
  Forall (fun c => is_kill_call c = true) cs ->
  _keys_held (glob (exec cs boot)) ⊆ KILL_COMBO.
Proof.
  intros Hcs.
  assert (H : forall s, _keys_held (glob s) ⊆ KILL_COMBO ->
                        _keys_held (glob (exec cs s)) ⊆ KILL_COMBO).
  { induction Hcs as [|c cs Hc _ IH]; intros s Hs; [done|].
    cbn [exec fold_left]. apply IH. by apply kill_call_held. }
  apply H. simpl. set_solver.
Qed.

Lemma kill_listener_holds_combo_keys_only_witness :
  let cs := [CKillPress (KeyCode (Some 65) (Some "a")); CKillPress (Special ctrl_l);
             CKillPress (Special (Key_other 7)); CKillRelease (Special ctrl_l);
             CKillPress (KeyCode (Some 113) (Some "q"))] in
  Forall (fun c => is_kill_call c = true) cs /\
  _keys_held (glob (exec cs boot)) ⊆ KILL_COMBO.
Proof.
  intros cs.
  assert (Hcs : Forall (fun c => is_kill_call c = true) cs) by (repeat constructor).
  split; [exact Hcs|]. exact (kill_listener_holds_combo_keys_only cs Hcs).
Defined.
